(** * Service-rule filter: a shallow embedding of
      [plugins/filters/services/services.go]

    The file embeds the rule filter of the agent: the loader of the
    discovery signatures ([NewRuleFilter], [loadServiceSignatures]), the
    attribute projection and rule test of one service instance ([matches])
    and the classification loop ([RuleFilter.Map]), and proves the
    properties the specification states about them.

    Go values are modelled as follows.
    - [string] is [string]; [map[string]string] is [gmap string string];
      a slice is a [list], indexed with [!!] and updated with [<[i:=x]>].
    - A function returning [(T, error)] returns a pair [T * option error];
      [None] is the nil error.
    - A run-time panic (index out of range) is the outcome [Panics].
    - The rule engine [github.com/hopkinsth/go-ruler] and [encoding/json]
      are outside the repository: they are the fields of the class
      [RuleEngine], and every theorem holds for every engine. *)

From Stdlib Require Import DecimalString DecimalN.
From stdpp Require Import gmap strings list fin_maps.

Open Scope string_scope.
Open Scope list_scope.

(** ** Go results *)

(** The Go [error] interface, reduced to its message. *)
Definition error : Type := string.

(** A call either returns or panics. *)
Inductive outcome (A : Type) : Type :=
  | Returns (a : A)
  | Panics.
Arguments Returns {A} a.
Arguments Panics {A}.

(** ** The [services] and [plugins] packages: the types the filter uses *)

Module services.

(** Modelled from the spec: the declarations of [services.Container],
    [services.Port], [services.Service] and [services.Instance] are not in
    the source tree; the records below have the fields [matches] and [Map]
    read and write, with the types those uses fix (the identity fields, the
    endpoint and the two label collections of section 3 of the
    specification).  Every instance has a container, a port and a service
    of its own: no two elements of a slice share the service record that
    [Map] writes to. *)
Record Container : Type := mkContainer {
  Container_ID : string;
  Container_Names : list string;
  Container_Image : string;
  Container_Pod : string;
  Container_Command : string;
  Container_State : string;
  Container_Labels : gmap string string
}.

(** The two port numbers are unsigned integers; [matches] widens them to
    [uint64], which keeps their value. *)
Record Port : Type := mkPort {
  Port_IP : string;
  Port_Type : string;
  Port_PublicPort : N;
  Port_PrivatePort : N;
  Port_Labels : gmap string string
}.

Definition ServiceType : Type := string.

Record Service : Type := mkService {
  Service_Name : string;
  Service_Type : ServiceType
}.

Record Instance : Type := mkInstance {
  Instance_Service : Service;
  Instance_Container : Container;
  Instance_Port : Port
}.

Abbreviation Instances := (list Instance).

(** The assignment [si.Service.Type = ty]. *)
Definition set_Service_Type (si : Instance) (ty : ServiceType) : Instance :=
  {| Instance_Service :=
       {| Service_Name := Service_Name (Instance_Service si);
          Service_Type := ty |};
     Instance_Container := Instance_Container si;
     Instance_Port := Instance_Port si |}.

End services.
Import services.

Module plugins.

(** Modelled from the spec: [plugins.Plugin] and the [viper] configuration
    are not in the source tree.  Of the configuration the filter reads one
    string-slice setting, so a configuration is a map from setting names to
    string slices; an unset name reads as the empty slice. *)
Record Plugin : Type := mkPlugin {
  Plugin_Name : string;
  Plugin_Config : gmap string (list string)
}.

Definition GetStringSlice (config : gmap string (list string)) (key : string)
  : list string :=
  default [] (config !! key).

End plugins.
Import plugins.

(** ** Rule sets *)

Section Rules.

(** The type of a rule's [Value] ([interface{}] in the source). *)
Context {Value : Type}.

Record DiscoveryRule : Type := mkRule {
  Comparator : string;
  Path : string;
  Value_ : Value
}.

(** DiscoveryRuleset that names a set of service discovery rules. *)
Record DiscoveryRuleset : Type := mkRuleset {
  Ruleset_Name : string;
  Ruleset_Type : string;
  Ruleset_Rules : list DiscoveryRule
}.

(** DiscoverySignatures with name. *)
Record DiscoverySignatures : Type := mkSignatures {
  Signatures_Name : string;
  Signatures : list DiscoveryRuleset
}.

(** RuleFilter filters instances based on rules. *)
Record RuleFilter : Type := mkRuleFilter {
  RuleFilter_Plugin : Plugin;
  serviceRules : list DiscoverySignatures
}.

End Rules.
Arguments DiscoveryRule : clear implicits.
Arguments DiscoveryRuleset : clear implicits.
Arguments DiscoverySignatures : clear implicits.
Arguments RuleFilter : clear implicits.

(** ** The collaborators outside the repository *)

(** [json.Marshal] of a rule list, [ruler.NewRulerWithJson] and
    [Ruler.Test], as [matches] calls them.  [Test] sees the attribute map
    only. *)
Class RuleEngine : Type := {
  Value : Type;
  JSON : Type;
  Ruler : Type;
  Marshal : list (DiscoveryRule Value) → JSON * option error;
  NewRulerWithJson : JSON → Ruler * option error;
  Test : Ruler → gmap string string → bool
}.

(** What [NewRuleFilter] calls: [plugins.NewPlugin], [ioutil.ReadFile] (the
    files as they are when the filter is built) and [json.Unmarshal] into a
    [DiscoverySignatures]; the first component of [Unmarshal] is what the
    decoder has stored in the variable when it returns. *)
Class Host (V : Type) : Type := {
  NewPlugin : string → gmap string (list string) → Plugin * option error;
  ReadFile : string → list Byte.byte * option error;
  Unmarshal : list Byte.byte → DiscoverySignatures V * option error
}.

(** ** [strconv.FormatUint(n, 10)] *)

Definition FormatUint (n : N) : string :=
  NilEmpty.string_of_uint (N.to_uint n).

(** Reading a decimal string back. *)
Definition ParseUint (s : string) : option N :=
  N.of_uint <$> NilEmpty.uint_of_string s.

(** ** Attribute projection *)

(** The map literal of [matches] (lines 99-110).  [Names[0]] panics on an
    empty slice, so there is no map then. *)
Definition fixedAttributes (si : Instance) : outcome (gmap string string) :=
  match Container_Names (Instance_Container si) with
  | [] => Panics
  | name0 :: _ =>
      Returns
        (<["NetworkPrivatePort" :=
             FormatUint (Port_PrivatePort (Instance_Port si))]>
        (<["NetworkPublicPort" :=
             FormatUint (Port_PublicPort (Instance_Port si))]>
        (<["NetworkType" := Port_Type (Instance_Port si)]>
        (<["NetworkIP" := Port_IP (Instance_Port si)]>
        (<["ContainerState" := Container_State (Instance_Container si)]>
        (<["ContainerCommand" := Container_Command (Instance_Container si)]>
        (<["ContainerPod" := Container_Pod (Instance_Container si)]>
        (<["ContainerImage" := Container_Image (Instance_Container si)]>
        (<["ContainerName" := name0]>
        (<["ContainerID" := Container_ID (Instance_Container si)]>
           ∅))))))))))
  end.

(** [for key, val := range labels { sm[prefix+key] = val }] *)
Definition addLabels (prefix : string) (labels sm : gmap string string)
  : gmap string string :=
  map_fold (λ key val acc, <[prefix +:+ key := val]> acc) sm labels.

(** The attribute map [sm] that [matches] hands to the engine. *)
Definition project (si : Instance) : outcome (gmap string string) :=
  match fixedAttributes si with
  | Panics => Panics
  | Returns sm =>
      Returns
        (addLabels "NetworkLabel-" (Port_Labels (Instance_Port si))
           (addLabels "ContainerLabel-"
              (Container_Labels (Instance_Container si)) sm))
  end.

(** How the two inner loops of [Map] leave off for one instance. *)
Inductive scan : Type :=
  | Exhausted
  | Found (ty : string)
  | Failed (err : error).

Section Filter.

Context {E : RuleEngine}.

(** ** [matches]: does the service instance satisfy the rules? *)
Definition matches (si : Instance) (ruleset : DiscoveryRuleset Value)
  : outcome (bool * option error) :=
  let '(jsonRules, err) := Marshal (Ruleset_Rules ruleset) in
  match err with
  | Some e => Returns (false, Some e)
  | None =>
      let '(engine, err) := NewRulerWithJson jsonRules in
      match err with
      | Some e => Returns (false, Some e)
      | None =>
          match project si with
          | Panics => Panics
          | Returns sm => Returns (Test engine sm, None)
          end
      end
  end.

(** The ruleset does not match the instance, and [matches] says so without
    an error. *)
Definition misses (si : Instance) (ruleset : DiscoveryRuleset Value) : Prop :=
  matches si ruleset = Returns (false, None).

(** ** [Map]: the first rule that matches each service instance *)

(** [for _, ruleset := range signature.Signatures]: [Found] is the
    [continue OUTER] after the assignment of the type, [Failed] the
    [return nil, err], [Exhausted] the end of the range. *)
Fixpoint rulesetLoop (si : Instance) (rulesets : list (DiscoveryRuleset Value))
  : outcome scan :=
  match rulesets with
  | [] => Returns Exhausted
  | ruleset :: rest =>
      match matches si ruleset with
      | Panics => Panics
      | Returns (_, Some err) => Returns (Failed err)
      | Returns (true, None) => Returns (Found (Ruleset_Type ruleset))
      | Returns (false, None) => rulesetLoop si rest
      end
  end.

(** [for _, signature := range filter.serviceRules] *)
Fixpoint signatureLoop (si : Instance)
    (signatures : list (DiscoverySignatures Value)) : outcome scan :=
  match signatures with
  | [] => Returns Exhausted
  | signature :: rest =>
      match rulesetLoop si (Signatures signature) with
      | Returns Exhausted => signatureLoop si rest
      | left_off => left_off
      end
  end.

(** [for i := range sis], on the indices still to visit.  The second
    component of the result is the slice [sis] as the loop leaves it: [Map]
    writes to the caller's elements.  The first is what [Map] returns. *)
Fixpoint instanceLoop (filter : RuleFilter Value) (indices : list nat)
    (sis applicableServices : Instances)
  : outcome (option Instances * option error) * Instances :=
  match indices with
  | [] => (Returns (Some applicableServices, None), sis)
  | i :: rest =>
      match sis !! i with
      | None => (Panics, sis)
      | Some si =>
          match signatureLoop si (serviceRules filter) with
          | Panics => (Panics, sis)
          | Returns (Failed err) => (Returns (None, Some err), sis)
          | Returns (Found ty) =>
              let sis' := <[i := set_Service_Type si ty]> sis in
              match sis' !! i with
              | None => (Panics, sis')
              | Some si' =>
                  instanceLoop filter rest sis' (applicableServices ++ [si'])
              end
          | Returns Exhausted =>
              instanceLoop filter rest sis applicableServices
          end
      end
  end.

(** Map matches discovered service instances to a plugin type. *)
Definition Map (filter : RuleFilter Value) (sis : Instances)
  : outcome (option Instances * option error) * Instances :=
  instanceLoop filter (seq 0 (length sis)) sis [].

(** The rulesets of a filter in the order [Map] tries them. *)
Definition rulesets (filter : RuleFilter Value) : list (DiscoveryRuleset Value) :=
  concat (Signatures <$> serviceRules filter).

(** What [Map] does with one instance. *)
Definition classify (filter : RuleFilter Value) (si : Instance) : outcome scan :=
  signatureLoop si (serviceRules filter).

(** The instance as [Map] leaves it in the slice. *)
Definition retag (filter : RuleFilter Value) (si : Instance) : Instance :=
  match classify filter si with
  | Returns (Found ty) => set_Service_Type si ty
  | _ => si
  end.

(** The instance [Map] appends for [si], if any. *)
Definition emitted (filter : RuleFilter Value) (si : Instance) : option Instance :=
  match classify filter si with
  | Returns (Found ty) => Some (set_Service_Type si ty)
  | _ => None
  end.

(** [classify] ends the loop of [Map]: an error or a panic. *)
Definition halts (filter : RuleFilter Value) (si : Instance) : bool :=
  match classify filter si with
  | Returns (Failed _) | Panics => true
  | _ => false
  end.

(** ** [NewRuleFilter] *)

Context {H : Host Value}.

(** loadServiceSignatures reads discovery rules from file.  On a read error
    the variable still has its zero value. *)
Definition loadServiceSignatures (servicesFile : string)
  : DiscoverySignatures Value * option error :=
  let '(jsonContent, err) := ReadFile servicesFile in
  match err with
  | Some e => ({| Signatures_Name := ""; Signatures := [] |}, Some e)
  | None =>
      let '(signatures, err) := Unmarshal jsonContent in
      match err with
      | Some e => (signatures, Some e)
      | None => (signatures, None)
      end
  end.

(** [for _, servicesFile := range servicesFiles] of [NewRuleFilter]: the
    signatures loaded so far, or the error that ends the construction. *)
Fixpoint loadLoop (servicesFiles : list string)
    (signatures : list (DiscoverySignatures Value))
  : list (DiscoverySignatures Value) + error :=
  match servicesFiles with
  | [] => inl signatures
  | servicesFile :: rest =>
      let '(loaded, err) := loadServiceSignatures servicesFile in
      match err with
      | Some e => inr e
      | None => loadLoop rest (signatures ++ [loaded])
      end
  end.

(** NewRuleFilter creates a new instance.  The [log.Printf] of each file
    name is not modelled. *)
Definition NewRuleFilter (name : string) (config : gmap string (list string))
  : option (RuleFilter Value) * option error :=
  let '(plugin, err) := NewPlugin name config in
  match err with
  | Some e => (None, Some e)
  | None =>
      let servicesFiles := GetStringSlice (Plugin_Config plugin) "servicesfiles" in
      if bool_decide (length servicesFiles = 0)
      then (None, Some "servicesFiles configuration value missing")
      else
        match loadLoop servicesFiles [] with
        | inr e => (None, Some e)
        | inl signatures =>
            (Some {| RuleFilter_Plugin := plugin; serviceRules := signatures |},
             None)
        end
  end.

End Filter.

(** The ruleset can be handed to the engine: [json.Marshal] and
    [ruler.NewRulerWithJson] both return a nil error on its rules. *)
Definition compiles {E : RuleEngine} (ruleset : DiscoveryRuleset Value) : Prop :=
  ∃ jsonRules engine,
    Marshal (Ruleset_Rules ruleset) = (jsonRules, None)
    ∧ NewRulerWithJson jsonRules = (engine, None).

(** ** An engine, a host and instances for the examples *)

(** A small engine: a value is a string, or [None] for a value that
    [json.Marshal] cannot encode; the compiled form is the rule list; a rule
    with comparator [eq] holds when the attribute at its path is its value,
    and every rule of the list must hold. *)
Definition exampleTest (rules : list (DiscoveryRule (option string)))
    (sm : gmap string string) : bool :=
  forallb
    (λ rule, String.eqb (Comparator rule) "eq"
             && bool_decide (sm !! Path rule = Value_ rule))
    rules.

Definition exampleEngine : RuleEngine :=
  {| Value := option string;
     JSON := list (DiscoveryRule (option string));
     Ruler := list (DiscoveryRule (option string));
     Marshal rules :=
       if forallb (λ rule, bool_decide (is_Some (Value_ rule))) rules
       then (rules, None)
       else ([], Some "json: unsupported type");
     NewRulerWithJson jsonRules := (jsonRules, None);
     Test := exampleTest |}.

Definition imageIs (ty image : string) : DiscoveryRuleset (option string) :=
  {| Ruleset_Name := ty;
     Ruleset_Type := ty;
     Ruleset_Rules :=
       [ {| Comparator := "eq"; Path := "ContainerImage";
            Value_ := Some image |} ] |}.

(** A ruleset [json.Marshal] refuses. *)
Definition brokenRuleset : DiscoveryRuleset (option string) :=
  {| Ruleset_Name := "broken";
     Ruleset_Type := "broken";
     Ruleset_Rules :=
       [ {| Comparator := "eq"; Path := "ContainerImage"; Value_ := None |} ] |}.

Definition fileA : DiscoverySignatures (option string) :=
  {| Signatures_Name := "fileA";
     Signatures := [ imageIs "redis" "redis:6"; imageIs "A" "nginx:1" ] |}.

Definition fileB : DiscoverySignatures (option string) :=
  {| Signatures_Name := "fileB";
     Signatures := [ imageIs "B" "nginx:1" ] |}.

(** A rule file whose first ruleset cannot be compiled; its second one
    would match the postgres image. *)
Definition fileBroken : DiscoverySignatures (option string) :=
  {| Signatures_Name := "fileBroken";
     Signatures := [ brokenRuleset; imageIs "postgres" "postgres:13" ] |}.

Definition examplePlugin : Plugin :=
  {| Plugin_Name := "filters/service-rules"; Plugin_Config := ∅ |}.

Definition exampleFilter : RuleFilter (option string) :=
  {| RuleFilter_Plugin := examplePlugin; serviceRules := [ fileA; fileB ] |}.

Definition brokenFilter : RuleFilter (option string) :=
  {| RuleFilter_Plugin := examplePlugin; serviceRules := [ fileA; fileBroken ] |}.

Definition container (names : list string) (image : string)
    (labels : gmap string string) : Container :=
  {| Container_ID := "c0ffee";
     Container_Names := names;
     Container_Image := image;
     Container_Pod := "pod-1";
     Container_Command := "run";
     Container_State := "running";
     Container_Labels := labels |}.

Definition port (labels : gmap string string) : Port :=
  {| Port_IP := "10.0.0.7";
     Port_Type := "tcp";
     Port_PublicPort := 8080;
     Port_PrivatePort := 80;
     Port_Labels := labels |}.

Definition instance (names : list string) (image : string) : Instance :=
  {| Instance_Service := {| Service_Name := "svc"; Service_Type := "" |};
     Instance_Container := container names image {[ "app" := "web" ]};
     Instance_Port := port {[ "app" := "http" ]} |}.

Definition redis : Instance := instance [ "/redis" ] "redis:6".
Definition nginx : Instance := instance [ "/nginx" ] "nginx:1".
Definition postgres : Instance := instance [ "/postgres" ] "postgres:13".
Definition nameless : Instance := instance [] "redis:6".

(** A host with two rule files; the first byte of a file decides what the
    decoder makes of it. *)
Definition exampleHost : Host (option string) :=
  {| NewPlugin name config :=
       ({| Plugin_Name := name; Plugin_Config := config |}, None);
     ReadFile servicesFile :=
       if String.eqb servicesFile "a.json" then ([ Byte.x41 ], None)
       else if String.eqb servicesFile "b.json" then ([ Byte.x42 ], None)
       else if String.eqb servicesFile "bad.json" then ([ Byte.x7b ], None)
       else ([], Some "open: no such file or directory");
     Unmarshal jsonContent :=
       match jsonContent with
       | [ Byte.x41 ] => (fileA, None)
       | [ Byte.x42 ] => (fileB, None)
       | _ => ({| Signatures_Name := ""; Signatures := [] |},
               Some "unexpected end of JSON input")
       end |}.

(** ** The keys of the attribute map *)

(** The keys of the map literal of [matches]. *)
Definition fixedKeys : list string :=
  [ "ContainerID"; "ContainerName"; "ContainerImage"; "ContainerPod";
    "ContainerCommand"; "ContainerState"; "NetworkIP"; "NetworkType";
    "NetworkPublicPort"; "NetworkPrivatePort" ].

(** The fixed keys as the specification lists them: identity id, first
    configured name, image/origin, command, lifecycle state, endpoint
    address, endpoint kind, public port and private port. *)
Definition specFixedKeys : list string :=
  [ "ContainerID"; "ContainerName"; "ContainerImage";
    "ContainerCommand"; "ContainerState"; "NetworkIP"; "NetworkType";
    "NetworkPublicPort"; "NetworkPrivatePort" ].

(** A key one of the two label loops writes. *)
Definition isLabelKey (key : string) : bool :=
  String.prefix "ContainerLabel-" key || String.prefix "NetworkLabel-" key.

(** * Properties *)

(** ** The scenarios of the specification *)

Example scenario_redis_postgres :
  Map (E := exampleEngine) exampleFilter [ postgres; redis ]
  = (Returns (Some [ set_Service_Type redis "redis" ], None),
     [ postgres; set_Service_Type redis "redis" ]).
Proof. vm_compute. reflexivity. Qed.

Example scenario_two_sources :
  Map (E := exampleEngine) exampleFilter [ nginx ]
  = (Returns (Some [ set_Service_Type nginx "A" ], None),
     [ set_Service_Type nginx "A" ]).
Proof. vm_compute. reflexivity. Qed.

Example scenario_broken_rule :
  Map (E := exampleEngine) brokenFilter [ redis; postgres; nginx ]
  = (Returns (None, Some "json: unsupported type"),
     [ set_Service_Type redis "redis"; postgres; nginx ]).
Proof. vm_compute. reflexivity. Qed.

Example scenario_nameless :
  fst (Map (E := exampleEngine) exampleFilter [ nameless ]) = Panics.
Proof. vm_compute. reflexivity. Qed.

(** ** Decimal rendering *)

Lemma ParseUint_FormatUint (n : N) : ParseUint (FormatUint n) = Some n.
Proof.
  unfold ParseUint, FormatUint.
  rewrite NilEmpty.usu. simpl. f_equal. apply DecimalN.Unsigned.of_to.
Qed.

(** ** The label loops *)

Lemma append_inj (p k1 k2 : string) : p +:+ k1 = p +:+ k2 → k1 = k2.
Proof.
  induction p as [|c p IH]; simpl; [done|].
  intros Heq. injection Heq as Heq. by apply IH.
Qed.

(** A key under the prefix reads the label, or what the map held before. *)
Lemma addLabels_lookup_label (p : string) (labels sm : gmap string string)
    (k : string) :
  addLabels p labels sm !! (p +:+ k)
  = match labels !! k with
    | Some v => Some v
    | None => sm !! (p +:+ k)
    end.
Proof.
  unfold addLabels.
  apply (map_fold_weak_ind
    (λ r (m : gmap string string),
       r !! (p +:+ k)
       = match m !! k with Some v => Some v | None => sm !! (p +:+ k) end)).
  - by rewrite lookup_empty.
  - intros i x m r Hi IH.
    destruct (decide (i = k)) as [->|Hne].
    + by rewrite !lookup_insert_eq.
    + rewrite !lookup_insert_ne; [done|done|].
      intros Heq. apply Hne. by eapply append_inj.
Qed.

(** A key outside the prefix is left as it was. *)
Lemma addLabels_lookup_other (p : string) (labels sm : gmap string string)
    (key : string) :
  (∀ k, key ≠ p +:+ k) →
  addLabels p labels sm !! key = sm !! key.
Proof.
  intros Hkey. unfold addLabels.
  apply (map_fold_weak_ind
    (λ r (m : gmap string string), r !! key = sm !! key)); [done|].
  intros i x m r _ IH. rewrite lookup_insert_ne; [done|].
  intros Heq. by apply (Hkey i).
Qed.

(** A key under the prefix that is in the map came from a label, or was
    there before. *)
Lemma addLabels_lookup_is_Some (p : string) (labels sm : gmap string string)
    (key : string) :
  is_Some (addLabels p labels sm !! key) →
  is_Some (sm !! key) ∨ ∃ k, key = p +:+ k ∧ is_Some (labels !! k).
Proof.
  unfold addLabels.
  apply (map_fold_weak_ind
    (λ r (m : gmap string string),
       is_Some (r !! key) →
       is_Some (sm !! key) ∨ ∃ k, key = p +:+ k ∧ is_Some (m !! k))).
  - by left.
  - intros i x m r Hi IH Hsome.
    destruct (decide (p +:+ i = key)) as [<-|Hne].
    + right. exists i. by rewrite lookup_insert_eq.
    + rewrite lookup_insert_ne in Hsome by done.
      destruct (IH Hsome) as [?|(k & -> & Hk)]; [by left|].
      right. exists k. split; [done|].
      rewrite lookup_insert_ne; [done|]. by intros ->.
Qed.

(** ** The attribute map *)

Lemma prefix_append (p k : string) : String.prefix p (p +:+ k) = true.
Proof.
  induction p as [|c p IH]; simpl; [by destruct k|].
  by destruct (Ascii.ascii_dec c c).
Qed.

Lemma prefix_inv (p key : string) :
  String.prefix p key = true → ∃ k, key = p +:+ k.
Proof.
  revert key. induction p as [|c p IH]; intros key Hp.
  - by exists key.
  - destruct key as [|c' key]; simpl in Hp; [done|].
    destruct (Ascii.ascii_dec c c') as [->|]; [|done].
    destruct (IH _ Hp) as [k ->]. by exists k.
Qed.

Lemma isLabelKey_false (key : string) :
  isLabelKey key = false →
  (∀ k, key ≠ "ContainerLabel-" +:+ k) ∧ (∀ k, key ≠ "NetworkLabel-" +:+ k).
Proof.
  unfold isLabelKey. intros [Hc Hn]%orb_false_elim.
  split; intros k ->.
  - by rewrite prefix_append in Hc.
  - by rewrite prefix_append in Hn.
Qed.

Lemma isLabelKey_fixedKeys (key : string) :
  key ∈ fixedKeys → isLabelKey key = false.
Proof.
  unfold fixedKeys. rewrite !elem_of_cons, elem_of_nil.
  intros Hkey. repeat (destruct Hkey as [->|Hkey]; [reflexivity|]). done.
Qed.

(** The label loops leave the ten keys of the map literal alone. *)
Lemma project_lookup_fixed (si : Instance) (fm sm : gmap string string)
    (key : string) :
  fixedAttributes si = Returns fm →
  project si = Returns sm →
  isLabelKey key = false →
  sm !! key = fm !! key.
Proof.
  unfold project. intros -> [= <-] [Hc Hn]%isLabelKey_false.
  by rewrite !addLabels_lookup_other.
Qed.

Lemma fixedAttributes_dom (si : Instance) (fm : gmap string string)
    (key : string) :
  fixedAttributes si = Returns fm →
  is_Some (fm !! key) ↔ key ∈ fixedKeys.
Proof.
  unfold fixedAttributes.
  destruct (Container_Names (Instance_Container si)); [done|].
  intros [= <-]. rewrite <- elem_of_dom.
  rewrite !dom_insert_L, dom_empty_L. unfold fixedKeys.
  rewrite !elem_of_union, !elem_of_singleton, elem_of_empty.
  rewrite !elem_of_cons, elem_of_nil. tauto.
Qed.

Lemma project_Returns (si : Instance) (sm : gmap string string) :
  project si = Returns sm →
  ∃ fm name0 names,
    Container_Names (Instance_Container si) = name0 :: names
    ∧ fixedAttributes si = Returns fm
    ∧ fm !! "ContainerName" = Some name0.
Proof.
  unfold project, fixedAttributes.
  destruct (Container_Names (Instance_Container si)) as [|name0 names];
    [done|].
  intros _. eexists _, name0, names. repeat split.
Qed.

(** C6. Label namespacing: every container label [k] is projected under
    the key [ContainerLabel-k] and every port label [k] under the key
    [NetworkLabel-k]; the two prefixes never produce the same key, so a
    label key present in both collections yields two attributes, each with
    its own value. *)
Theorem label_namespacing (si : Instance) (sm : gmap string string) :
  project si = Returns sm →
  (∀ k v, Container_Labels (Instance_Container si) !! k = Some v →
          sm !! ("ContainerLabel-" +:+ k) = Some v)
  ∧ (∀ k v, Port_Labels (Instance_Port si) !! k = Some v →
            sm !! ("NetworkLabel-" +:+ k) = Some v)
  ∧ (∀ k k', "ContainerLabel-" +:+ k ≠ "NetworkLabel-" +:+ k')
  ∧ (∀ k v1 v2,
       Container_Labels (Instance_Container si) !! k = Some v1 →
       Port_Labels (Instance_Port si) !! k = Some v2 →
       "ContainerLabel-" +:+ k ≠ "NetworkLabel-" +:+ k
       ∧ sm !! ("ContainerLabel-" +:+ k) = Some v1
       ∧ sm !! ("NetworkLabel-" +:+ k) = Some v2).
Proof.
  intros Hsm.
  assert (Hc : ∀ k v, Container_Labels (Instance_Container si) !! k = Some v →
                      sm !! ("ContainerLabel-" +:+ k) = Some v).
  { intros k v Hk. unfold project in Hsm.
    destruct (fixedAttributes si) as [fm|]; [|done].
    injection Hsm as <-.
    rewrite addLabels_lookup_other by (intros ? ?; simplify_eq/=).
    by rewrite addLabels_lookup_label, Hk. }
  assert (Hn : ∀ k v, Port_Labels (Instance_Port si) !! k = Some v →
                      sm !! ("NetworkLabel-" +:+ k) = Some v).
  { intros k v Hk. unfold project in Hsm.
    destruct (fixedAttributes si) as [fm|]; [|done].
    injection Hsm as <-.
    by rewrite addLabels_lookup_label, Hk. }
  repeat split; auto; intros; simplify_eq/=.
Qed.

Lemma label_namespacing_witness :
  ∃ sm, project redis = Returns sm
        ∧ "ContainerLabel-app" ≠ "NetworkLabel-app"
        ∧ sm !! "ContainerLabel-app" = Some "web"
        ∧ sm !! "NetworkLabel-app" = Some "http".
Proof.
  eexists. split; [reflexivity|].
  apply (label_namespacing redis _ eq_refl); reflexivity.
Defined.

(** C7, as the claim states it: no instance's attribute map has a key
    outside the nine the specification lists, labels apart.  The map of
    the redis instance has the key [ContainerPod]. *)
Lemma spec_fixed_keys_incomplete :
  ¬ (∀ (si : Instance) (sm : gmap string string),
       project si = Returns sm →
       ∀ key, (is_Some (sm !! key) ∧ isLabelKey key = false)
              ↔ key ∈ specFixedKeys).
Proof.
  intros Hclaim.
  destruct (Hclaim redis _ eq_refl "ContainerPod") as [Hin _].
  assert (Hpod : "ContainerPod" ∈ specFixedKeys).
  { apply Hin. split; [|reflexivity]. exists "pod-1". by vm_compute. }
  unfold specFixedKeys in Hpod.
  rewrite !elem_of_cons, elem_of_nil in Hpod.
  repeat (destruct Hpod as [Hpod|Hpod]; [discriminate Hpod|]). done.
Qed.

(** C7, amended. The keys of the attribute map that no label loop wrote are
    exactly the ten keys of the map literal: the nine of the specification
    and [ContainerPod].  Each holds the field it is named after, the first
    name under [ContainerName], and the two ports as decimal strings, which
    read back as the port numbers. *)
Theorem project_fixed_keys (si : Instance) (sm : gmap string string) :
  project si = Returns sm →
  (∀ key, (is_Some (sm !! key) ∧ isLabelKey key = false) ↔ key ∈ fixedKeys)
  ∧ sm !! "ContainerID" = Some (Container_ID (Instance_Container si))
  ∧ sm !! "ContainerName" = head (Container_Names (Instance_Container si))
  ∧ sm !! "ContainerImage" = Some (Container_Image (Instance_Container si))
  ∧ sm !! "ContainerPod" = Some (Container_Pod (Instance_Container si))
  ∧ sm !! "ContainerCommand" = Some (Container_Command (Instance_Container si))
  ∧ sm !! "ContainerState" = Some (Container_State (Instance_Container si))
  ∧ sm !! "NetworkIP" = Some (Port_IP (Instance_Port si))
  ∧ sm !! "NetworkType" = Some (Port_Type (Instance_Port si))
  ∧ sm !! "NetworkPublicPort"
    = Some (FormatUint (Port_PublicPort (Instance_Port si)))
  ∧ sm !! "NetworkPrivatePort"
    = Some (FormatUint (Port_PrivatePort (Instance_Port si)))
  ∧ sm !! "NetworkPublicPort" ≫= ParseUint
    = Some (Port_PublicPort (Instance_Port si))
  ∧ sm !! "NetworkPrivatePort" ≫= ParseUint
    = Some (Port_PrivatePort (Instance_Port si)).
Proof.
  intros Hsm.
  destruct (project_Returns si sm Hsm) as (fm & name0 & names & Hnames & Hfm & _).
  split.
  { intros key. split.
    - intros [Hsome Hkey].
      rewrite (project_lookup_fixed si fm sm key Hfm Hsm Hkey) in Hsome.
      by apply (fixedAttributes_dom si fm key Hfm).
    - intros Hkey. pose proof (isLabelKey_fixedKeys key Hkey) as Hlabel.
      split; [|done].
      rewrite (project_lookup_fixed si fm sm key Hfm Hsm Hlabel).
      by apply (fixedAttributes_dom si fm key Hfm). }
  assert (Hliteral : ∀ key, isLabelKey key = false → sm !! key = fm !! key)
    by (intros key Hkey; by eapply project_lookup_fixed).
  rewrite !Hliteral by reflexivity. clear Hliteral Hsm.
  unfold fixedAttributes in Hfm. rewrite Hnames in Hfm.
  injection Hfm as <-. rewrite Hnames. simpl head.
  repeat split; simplify_map_eq/=; try done; apply ParseUint_FormatUint.
Qed.

Lemma project_fixed_keys_witness :
  ∃ sm, project redis = Returns sm
        ∧ sm !! "ContainerName" = Some "/redis"
        ∧ sm !! "ContainerPod" = Some "pod-1"
        ∧ sm !! "NetworkPublicPort" ≫= ParseUint = Some 8080%N
        ∧ sm !! "NetworkPrivatePort" ≫= ParseUint = Some 80%N.
Proof.
  eexists. split; [reflexivity|].
  destruct (project_fixed_keys redis _ eq_refl)
    as (_ & _ & Hname & _ & Hpod & _ & _ & _ & _ & _ & _ & Hpub & Hpriv).
  exact (conj Hname (conj Hpod (conj Hpub Hpriv))).
Defined.

(** C8. First-name access: [matches] reads [Names[0]] with no guard.  For
    an instance with at least one name the access is in bounds: the
    projection returns a map whose [ContainerName] is the first name, and
    [matches] does not panic on any ruleset.  For an instance with no name
    the projection panics, with no fallback value, and so does [matches] on
    every ruleset that reaches the projection. *)
Theorem first_name_access {E : RuleEngine} (si : Instance) :
  (Container_Names (Instance_Container si) ≠ [] →
     (∃ sm, project si = Returns sm
            ∧ sm !! "ContainerName"
              = head (Container_Names (Instance_Container si)))
     ∧ ∀ ruleset, matches si ruleset ≠ Panics)
  ∧ (Container_Names (Instance_Container si) = [] →
     project si = Panics
     ∧ ∀ ruleset, compiles ruleset → matches si ruleset = Panics).
Proof.
  split.
  - intros Hnames.
    assert (Hsm : ∃ sm, project si = Returns sm).
    { unfold project, fixedAttributes.
      destruct (Container_Names (Instance_Container si)); [done|]. eauto. }
    destruct Hsm as [sm Hsm]. split.
    + exists sm. split; [done|].
      destruct (project_Returns si sm Hsm)
        as (fm & name0 & names & Hname0 & Hfm & Hlookup).
      rewrite (project_lookup_fixed si fm sm "ContainerName" Hfm Hsm eq_refl).
      by rewrite Hname0.
    + intros ruleset. unfold matches. rewrite Hsm.
      destruct (Marshal (Ruleset_Rules ruleset)) as [jsonRules [e|]]; [done|].
      by destruct (NewRulerWithJson jsonRules) as [engine [e|]].
  - intros Hnames.
    assert (Hsm : project si = Panics).
    { unfold project, fixedAttributes. by rewrite Hnames. }
    split; [done|].
    intros ruleset (jsonRules & engine & Hjson & Hengine).
    unfold matches. by rewrite Hjson, Hengine, Hsm.
Qed.

Lemma first_name_access_witness :
  ((∃ sm, project redis = Returns sm ∧ sm !! "ContainerName" = Some "/redis")
   ∧ matches (E := exampleEngine) redis (imageIs "redis" "redis:6") ≠ Panics)
  ∧ project nameless = Panics
  ∧ matches (E := exampleEngine) nameless (imageIs "redis" "redis:6") = Panics.
Proof.
  destruct (first_name_access (E := exampleEngine) redis) as [Hnamed _].
  destruct (first_name_access (E := exampleEngine) nameless) as [_ Hnameless].
  destruct (Hnamed ltac:(discriminate)) as [Hsm Hmatches].
  destruct (Hnameless eq_refl) as [Hpanics Hruleset].
  split; [split; [exact Hsm | exact (Hmatches _)]|].
  split; [exact Hpanics|].
  apply Hruleset. eexists _, _. split; reflexivity.
Defined.

(** ** The loops of [Map] *)

Section Loops.

Context {E : RuleEngine}.

Lemma rulesetLoop_app (si : Instance) (rs1 rs2 : list (DiscoveryRuleset Value)) :
  rulesetLoop si (rs1 ++ rs2)
  = match rulesetLoop si rs1 with
    | Returns Exhausted => rulesetLoop si rs2
    | left_off => left_off
    end.
Proof.
  induction rs1 as [|r rs1 IH]; simpl; [done|].
  by destruct (matches si r) as [[[|] [e|]]|].
Qed.

Lemma signatureLoop_concat (si : Instance)
    (signatures : list (DiscoverySignatures Value)) :
  signatureLoop si signatures
  = rulesetLoop si (concat (Signatures <$> signatures)).
Proof.
  induction signatures as [|s signatures IH]; simpl; [done|].
  rewrite rulesetLoop_app, IH.
  by destruct (rulesetLoop si (Signatures s)) as [[| |]|].
Qed.

Lemma classify_rulesets (filter : RuleFilter Value) (si : Instance) :
  classify filter si = rulesetLoop si (rulesets filter).
Proof. apply signatureLoop_concat. Qed.

Lemma rulesetLoop_misses (si : Instance) (rs : list (DiscoveryRuleset Value)) :
  rulesetLoop si rs = Returns Exhausted ↔ Forall (misses si) rs.
Proof.
  unfold misses. induction rs as [|r rs IH]; simpl.
  - split; [constructor | done].
  - rewrite Forall_cons.
    destruct (matches si r) as [[[|] [e|]]|]; try (split; [done|by intros [[=] _]]).
    rewrite IH. split; [by split | by intros [_ ?]].
Qed.

Lemma rulesetLoop_first (si : Instance) (before after : list (DiscoveryRuleset Value))
    (r : DiscoveryRuleset Value) :
  Forall (misses si) before →
  rulesetLoop si (before ++ r :: after)
  = match matches si r with
    | Panics => Panics
    | Returns (_, Some err) => Returns (Failed err)
    | Returns (true, None) => Returns (Found (Ruleset_Type r))
    | Returns (false, None) => rulesetLoop si after
    end.
Proof.
  intros Hbefore. rewrite rulesetLoop_app.
  apply rulesetLoop_misses in Hbefore. by rewrite Hbefore.
Qed.

End Loops.

Section OuterLoop.

Context {E : RuleEngine}.
Implicit Types (filter : RuleFilter Value) (si : Instance).
Implicit Types (sis pre post todo visited : Instances).

(** The loop over a batch none of whose instances ends it: every instance
    is visited; the matched ones are retyped in place and appended. *)
Lemma instanceLoop_ok filter todo : ∀ visited acc,
  Forall (λ si, halts filter si = false) todo →
  instanceLoop filter (seq (length visited) (length todo)) (visited ++ todo) acc
  = (Returns (Some (acc ++ omap (emitted filter) todo), None),
     visited ++ (retag filter <$> todo)).
Proof.
  induction todo as [|si todo IH]; intros visited acc Hall; simpl.
  { by rewrite !app_nil_r. }
  apply Forall_cons in Hall as [Hsi Hall].
  rewrite list_lookup_middle by done.
  specialize (IH (visited ++ [si])) as IHskip.
  specialize (IH (visited ++ [retag filter si])).
  rewrite length_app, <- !(assoc_L (++)) in IH, IHskip. simpl in IH, IHskip.
  rewrite Nat.add_1_r in IH, IHskip.
  unfold halts, emitted, retag in *. unfold classify in *.
  destruct (signatureLoop si (serviceRules filter)) as [[|ty|err]|]; try done.
  - by apply IHskip.
  - rewrite insert_app_r_alt, Nat.sub_diag by done. simpl.
    rewrite list_lookup_middle by done.
    rewrite IH by done. by rewrite <- (assoc_L (++)).
Qed.

(** The loop over a batch whose first instance to end it is [si]: the
    instances before it are visited as above, [si] and the rest are left as
    they were, and the call ends as the scan of [si] did. *)
Lemma instanceLoop_halt filter pre : ∀ visited acc si post,
  Forall (λ si, halts filter si = false) pre →
  halts filter si = true →
  instanceLoop filter
    (seq (length visited) (length (pre ++ si :: post)))
    (visited ++ pre ++ si :: post) acc
  = (match classify filter si with
     | Returns (Failed err) => Returns (None, Some err)
     | _ => Panics
     end,
     visited ++ (retag filter <$> pre) ++ si :: post).
Proof.
  induction pre as [|s pre IH]; intros visited acc si post Hall Hsi; simpl.
  { rewrite list_lookup_middle by done.
    unfold halts, classify in *.
    by destruct (signatureLoop si (serviceRules filter)) as [[|ty|err]|]. }
  apply Forall_cons in Hall as [Hs Hall].
  rewrite list_lookup_middle by done.
  unfold halts in Hs. unfold retag at 1.
  change (signatureLoop s (serviceRules filter)) with (classify filter s).
  destruct (classify filter s) as [[|ty|err]|]; try done.
  - specialize (IH (visited ++ [s]) acc si post Hall Hsi).
    rewrite length_app, <- !(assoc_L (++)) in IH. simpl in IH.
    by rewrite Nat.add_1_r in IH.
  - rewrite insert_app_r_alt, Nat.sub_diag by done. simpl.
    rewrite list_lookup_middle by done.
    specialize (IH (visited ++ [set_Service_Type s ty])
                  (acc ++ [set_Service_Type s ty]) si post Hall Hsi).
    rewrite length_app, <- !(assoc_L (++)) in IH. simpl in IH.
    by rewrite Nat.add_1_r in IH.
Qed.

Lemma Map_ok filter sis :
  Forall (λ si, halts filter si = false) sis →
  Map filter sis
  = (Returns (Some (omap (emitted filter) sis), None), retag filter <$> sis).
Proof. intros Hall. by apply (instanceLoop_ok filter sis [] []). Qed.

Lemma Map_halt filter pre si post :
  Forall (λ si, halts filter si = false) pre →
  halts filter si = true →
  Map filter (pre ++ si :: post)
  = (match classify filter si with
     | Returns (Failed err) => Returns (None, Some err)
     | _ => Panics
     end,
     (retag filter <$> pre) ++ si :: post).
Proof. intros Hall Hsi. by apply (instanceLoop_halt filter pre [] []). Qed.

(** A batch either has no instance that ends the loop or a first one. *)
Lemma halts_split filter sis :
  Forall (λ si, halts filter si = false) sis
  ∨ ∃ pre si post,
      sis = pre ++ si :: post
      ∧ Forall (λ si, halts filter si = false) pre
      ∧ halts filter si = true.
Proof.
  induction sis as [|s sis IH]; [by left|].
  destruct (halts filter s) eqn:Hs.
  - right. by exists [], s, sis.
  - destruct IH as [Hall|(pre & si & post & -> & Hpre & Hsi)].
    + left. by constructor.
    + right. exists (s :: pre), si, post. repeat split; [|done]. by constructor.
Qed.

End OuterLoop.

(** ** One instance *)

Section Classify.

Context {E : RuleEngine}.
Implicit Types (filter : RuleFilter Value) (si : Instance).

(** The projection does not read the service type. *)
Lemma project_set_Service_Type si ty :
  project (set_Service_Type si ty) = project si.
Proof. reflexivity. Qed.

Lemma rulesetLoop_project si si' (rs : list (DiscoveryRuleset Value)) :
  project si = project si' → rulesetLoop si rs = rulesetLoop si' rs.
Proof.
  intros Hsm. induction rs as [|r rs IH]; simpl; [done|].
  unfold matches. by rewrite Hsm, IH.
Qed.

Lemma classify_project filter si si' :
  project si = project si' → classify filter si = classify filter si'.
Proof.
  intros Hsm. rewrite !classify_rulesets. by apply rulesetLoop_project.
Qed.

Lemma classify_set_Service_Type filter si ty :
  classify filter (set_Service_Type si ty) = classify filter si.
Proof. by apply classify_project. Qed.

Lemma classify_retag filter si :
  classify filter (retag filter si) = classify filter si.
Proof.
  unfold retag. destruct (classify filter si) as [[|ty|err]|] eqn:Hsi; try done.
  by rewrite classify_set_Service_Type.
Qed.

Lemma halts_retag filter si : halts filter (retag filter si) = halts filter si.
Proof. unfold halts. by rewrite classify_retag. Qed.

Lemma retag_retag filter si : retag filter (retag filter si) = retag filter si.
Proof.
  unfold retag at 1. rewrite classify_retag. unfold retag.
  by destruct (classify filter si) as [[|ty|err]|].
Qed.

Lemma emitted_retag filter si :
  emitted filter (retag filter si) = emitted filter si.
Proof.
  unfold emitted. rewrite classify_retag. unfold retag.
  by destruct (classify filter si) as [[|ty|err]|].
Qed.

Lemma emitted_Some_retag filter si si' :
  emitted filter si = Some si' → retag filter si = si'.
Proof.
  unfold emitted, retag.
  destruct (classify filter si) as [[|ty|err]|]; naive_solver.
Qed.

Lemma classify_first filter si (before after : list (DiscoveryRuleset Value))
    (r : DiscoveryRuleset Value) :
  rulesets filter = before ++ r :: after →
  Forall (misses si) before →
  classify filter si
  = match matches si r with
    | Panics => Panics
    | Returns (_, Some err) => Returns (Failed err)
    | Returns (true, None) => Returns (Found (Ruleset_Type r))
    | Returns (false, None) => rulesetLoop si after
    end.
Proof.
  intros Hrs Hbefore. rewrite classify_rulesets, Hrs.
  by apply rulesetLoop_first.
Qed.

Lemma Forall_halts_retag filter (sis : Instances) :
  Forall (λ si, halts filter si = false) sis →
  Forall (λ si, halts filter si = false) (retag filter <$> sis).
Proof.
  intros Hall. apply Forall_fmap. eapply Forall_impl; [done|].
  intros si Hsi. simpl. by rewrite halts_retag.
Qed.

Lemma omap_emitted_retag filter (sis : Instances) :
  omap (emitted filter) (retag filter <$> sis) = omap (emitted filter) sis.
Proof.
  induction sis as [|si sis IH]; csimpl; [done|].
  by rewrite emitted_retag, IH.
Qed.

Lemma retag_retag_fmap filter (sis : Instances) :
  retag filter <$> (retag filter <$> sis) = retag filter <$> sis.
Proof.
  rewrite <- list_fmap_compose. apply list_fmap_ext.
  intros ? si ?. apply retag_retag.
Qed.

(** Instances that [Map] emits as they are. *)
Lemma omap_emitted_fixed filter (sis : Instances) :
  (∀ si, si ∈ sis → emitted filter si = Some si) →
  omap (emitted filter) sis = sis.
Proof.
  induction sis as [|si sis IH]; intros Hfixed; csimpl; [done|].
  rewrite (Hfixed si) by by left.
  rewrite IH; [done|]. intros s Hs. apply Hfixed. by right.
Qed.

Lemma fmap_retag_fixed filter (sis : Instances) :
  (∀ si, si ∈ sis → retag filter si = si) →
  retag filter <$> sis = sis.
Proof.
  induction sis as [|si sis IH]; intros Hfixed; csimpl; [done|].
  rewrite (Hfixed si) by by left.
  rewrite IH; [done|]. intros s Hs. apply Hfixed. by right.
Qed.

(** What [Map] appends is what it finds in the slice afterwards. *)
Lemma omap_emitted_sublist filter (sis : Instances) :
  sublist (omap (emitted filter) sis) (retag filter <$> sis).
Proof.
  induction sis as [|si sis IH]; csimpl; [constructor|].
  destruct (emitted filter si) as [si'|] eqn:Hsi.
  - rewrite (emitted_Some_retag _ _ _ Hsi). by constructor.
  - by constructor.
Qed.

(** A call of [Map] that returns a slice has met no instance that ends the
    loop. *)
Lemma Map_Returns_Some filter (sis out st : Instances) (err : option error) :
  Map filter sis = (Returns (Some out, err), st) →
  Forall (λ si, halts filter si = false) sis.
Proof.
  intros HMap.
  destruct (halts_split filter sis)
    as [Hall|(pre & si & post & -> & Hpre & Hsi)]; [done|].
  rewrite (Map_halt filter pre si post Hpre Hsi) in HMap.
  by destruct (classify filter si) as [[|ty|e]|].
Qed.

(** What a call of [Map] that returns a slice returns, and how it leaves
    the input. *)
Lemma Map_success filter (sis out st : Instances) (err : option error) :
  Map filter sis = (Returns (Some out, err), st) →
  out = omap (emitted filter) sis ∧ st = retag filter <$> sis ∧ err = None.
Proof.
  intros HMap.
  pose proof (Map_Returns_Some _ _ _ _ _ HMap) as Hall.
  rewrite (Map_ok _ _ Hall) in HMap. by injection HMap as <- <- <-.
Qed.

End Classify.

Lemma take_drop_reinsert {A : Type} (l1 l1' l2 : list A) (x : A) :
  length l1' = length l1 →
  take (length l1) (l1' ++ l2) ++ x :: drop (length l1) (l1' ++ l2)
  = l1' ++ x :: l2.
Proof.
  intros Hlen. by rewrite take_app_length', drop_app_length' by done.
Qed.

(** ** The claims about [Map] *)

Section MapClaims.

Context {E : RuleEngine}.
Implicit Types (filter : RuleFilter Value) (si : Instance).
Implicit Types (sis pre post out st : Instances).

(** C1. First-match-wins: when the rulesets of the filter, in the order of
    the sources and of the rulesets within each source, are [before],
    then [R1], then [after], no ruleset of [before] matches the instance
    and [R1] does, the instance is classified with the type of [R1]
    whatever [after] holds, also a later ruleset that matches or one that
    cannot be evaluated.  In a batch whose earlier instances do not end
    the call, [Map] writes that type to the instance's element of the
    slice: the element then has [R1]'s type in its [Service.Type] field,
    not the different type of any later ruleset, and is otherwise the
    instance as it was.  [Map] on the instance alone returns the slice
    holding that element, with a nil error; in a batch whose other
    instances do not end the call either, [Map] returns, with a nil error,
    the slice it returns for the instances before, then that element, then
    the slice it returns for the instances after. *)
Theorem first_match_wins filter pre si post
    (before after : list (DiscoveryRuleset Value)) (R1 : DiscoveryRuleset Value) :
  rulesets filter = before ++ R1 :: after →
  Forall (misses si) before →
  matches si R1 = Returns (true, None) →
  Forall (λ s, halts filter s = false) pre →
  classify filter si = Returns (Found (Ruleset_Type R1))
  ∧ (∀ filter' after',
       rulesets filter' = before ++ R1 :: after' →
       classify filter' si = Returns (Found (Ruleset_Type R1)))
  ∧ snd (Map filter (pre ++ si :: post)) !! length pre
    = Some (set_Service_Type si (Ruleset_Type R1))
  ∧ (∀ out err,
       fst (Map filter (pre ++ si :: post)) = Returns (Some out, err) →
       out = omap (emitted filter) pre
             ++ set_Service_Type si (Ruleset_Type R1)
             :: omap (emitted filter) post)
  ∧ ∃ si',
      Service_Type (Instance_Service si') = Ruleset_Type R1
      ∧ Service_Name (Instance_Service si')
        = Service_Name (Instance_Service si)
      ∧ Instance_Container si' = Instance_Container si
      ∧ Instance_Port si' = Instance_Port si
      ∧ (∀ R2, R2 ∈ after →
               Ruleset_Type R2 ≠ Ruleset_Type R1 →
               Service_Type (Instance_Service si') ≠ Ruleset_Type R2)
      ∧ snd (Map filter (pre ++ si :: post)) !! length pre = Some si'
      ∧ Map filter [si] = (Returns (Some [si'], None), [si'])
      ∧ (Forall (λ s, halts filter s = false) post →
         ∃ out1 out2 st1 st2,
           Map filter pre = (Returns (Some out1, None), st1)
           ∧ Map filter post = (Returns (Some out2, None), st2)
           ∧ Map filter (pre ++ si :: post)
             = (Returns (Some (out1 ++ si' :: out2), None),
                st1 ++ si' :: st2)).
Proof.
  intros Hrs Hbefore HR1 Hpre.
  assert (Hfirst : ∀ filter' after',
            rulesets filter' = before ++ R1 :: after' →
            classify filter' si = Returns (Found (Ruleset_Type R1))).
  { intros filter' after' Hrs'.
    by rewrite (classify_first filter' si before after' R1 Hrs' Hbefore), HR1. }
  pose proof (Hfirst filter after Hrs) as Hsi.
  assert (Hnohalt : halts filter si = false) by (unfold halts; by rewrite Hsi).
  assert (Hretag : retag filter si = set_Service_Type si (Ruleset_Type R1))
    by (unfold retag; by rewrite Hsi).
  assert (Hemit : emitted filter si
                  = Some (set_Service_Type si (Ruleset_Type R1)))
    by (unfold emitted; by rewrite Hsi).
  assert (Hslice : snd (Map filter (pre ++ si :: post)) !! length pre
                   = Some (set_Service_Type si (Ruleset_Type R1))).
  { destruct (halts_split filter post)
      as [Hpost|(q1 & h & q2 & -> & Hq1 & Hh)].
    + rewrite Map_ok by (apply Forall_app; split; [done|by constructor]).
      simpl. rewrite fmap_app, fmap_cons, Hretag.
      apply list_lookup_middle. by rewrite length_fmap.
    + replace (pre ++ si :: q1 ++ h :: q2)
        with ((pre ++ si :: q1) ++ h :: q2) by by rewrite <- (assoc_L (++)).
      rewrite Map_halt; [|apply Forall_app; split; [done|by constructor]|done].
      simpl. rewrite fmap_app, fmap_cons, Hretag, <- (assoc_L (++)).
      apply list_lookup_middle. by rewrite length_fmap. }
  split; [done|]. split; [done|]. split; [done|]. split.
  - intros out err Hout.
    destruct (Map filter (pre ++ si :: post)) as [res st] eqn:HMap.
    simpl in Hout. subst res.
    apply Map_success in HMap as (-> & _ & _).
    rewrite omap_app. csimpl. by rewrite Hemit.
  - exists (set_Service_Type si (Ruleset_Type R1)).
    split; [done|]. split; [done|]. split; [done|]. split; [done|].
    split; [|split; [done|split]].
    + intros R2 _ Hty Heq. simpl in Heq. by apply Hty.
    + rewrite Map_ok by by repeat constructor.
      csimpl. by rewrite Hemit, Hretag.
    + intros Hpost.
      exists (omap (emitted filter) pre), (omap (emitted filter) post),
             (retag filter <$> pre), (retag filter <$> post).
      rewrite !Map_ok by (rewrite ?Forall_app, ?Forall_cons; done).
      rewrite omap_app, fmap_app. csimpl. by rewrite Hemit, Hretag.
Qed.

(** C2. Fail-fast: when [matches] returns an error on the first ruleset
    that does not miss the instance, and no earlier instance of the batch
    ended the call, [Map] returns that error and a nil slice, whatever the
    later rulesets hold.  Whenever [Map] returns an error the slice it
    returns is nil, and the error is the one [matches] returned on an
    instance of the batch. *)
Theorem fail_fast filter pre si post
    (before after : list (DiscoveryRuleset Value)) (R : DiscoveryRuleset Value)
    (b : bool) (err : error) :
  rulesets filter = before ++ R :: after →
  Forall (misses si) before →
  matches si R = Returns (b, Some err) →
  Forall (λ s, halts filter s = false) pre →
  fst (Map filter (pre ++ si :: post)) = Returns (None, Some err)
  ∧ (∀ sis o e,
       fst (Map filter sis) = Returns (o, Some e) →
       o = None
       ∧ ∃ pre' si' post',
           sis = pre' ++ si' :: post'
           ∧ classify filter si' = Returns (Failed e)).
Proof.
  intros Hrs Hbefore HR Hpre.
  assert (Hsi : classify filter si = Returns (Failed err)).
  { rewrite (classify_first filter si before after R Hrs Hbefore), HR.
    by destruct b. }
  split.
  - rewrite Map_halt; [|done|unfold halts; by rewrite Hsi].
    simpl. by rewrite Hsi.
  - intros sis o e HMap.
    destruct (halts_split filter sis)
      as [Hall|(pre' & si' & post' & -> & Hpre' & Hsi')].
    + by rewrite Map_ok in HMap.
    + rewrite Map_halt in HMap by done. simpl in HMap.
      destruct (classify filter si') as [[|ty|e']|] eqn:Hc; try done.
      injection HMap as <- <-. split; [done|]. by exists pre', si', post'.
Qed.

(** C3. Non-match is not an error: an instance that every ruleset of the
    filter misses is scanned to the end without an error, is not appended
    to the output and keeps its type; [Map] on a batch that holds it
    returns exactly what it returns on the batch without it (the same
    slice or the same error), and leaves the other elements as it leaves
    them there. *)
Theorem non_match_excluded filter pre si post :
  Forall (misses si) (rulesets filter) →
  classify filter si = Returns Exhausted
  ∧ emitted filter si = None
  ∧ Map filter [si] = (Returns (Some [], None), [si])
  ∧ Map filter (pre ++ si :: post)
    = (fst (Map filter (pre ++ post)),
       take (length pre) (snd (Map filter (pre ++ post)))
       ++ si :: drop (length pre) (snd (Map filter (pre ++ post)))).
Proof.
  intros Hmisses.
  assert (Hsi : classify filter si = Returns Exhausted)
    by (rewrite classify_rulesets; by apply rulesetLoop_misses).
  assert (Hnohalt : halts filter si = false) by (unfold halts; by rewrite Hsi).
  assert (Hretag : retag filter si = si) by (unfold retag; by rewrite Hsi).
  assert (Hemit : emitted filter si = None) by (unfold emitted; by rewrite Hsi).
  split; [done|]. split; [done|]. split.
  { rewrite Map_ok by by repeat constructor. csimpl. by rewrite Hemit, Hretag. }
  destruct (halts_split filter pre)
    as [Hpre|(p1 & h & p2 & -> & Hp1 & Hh)].
  - destruct (halts_split filter post)
      as [Hpost|(q1 & h & q2 & -> & Hq1 & Hh)].
    + rewrite !Map_ok by (rewrite ?Forall_app, ?Forall_cons; done).
      simpl. rewrite !omap_app, !fmap_app. csimpl.
      rewrite Hemit, Hretag.
      by rewrite take_drop_reinsert by by rewrite length_fmap.
    + replace (pre ++ si :: q1 ++ h :: q2)
        with ((pre ++ si :: q1) ++ h :: q2) by by rewrite <- (assoc_L (++)).
      rewrite (assoc_L (++) pre q1 (h :: q2)).
      rewrite !Map_halt by (rewrite ?Forall_app, ?Forall_cons; done).
      simpl. rewrite !fmap_app. csimpl. rewrite Hretag, <- !(assoc_L (++)).
      simpl. by rewrite take_drop_reinsert by by rewrite length_fmap.
  - rewrite <- !(assoc_L (++)). simpl.
    rewrite !Map_halt by done. simpl.
    replace ((retag filter <$> p1) ++ h :: p2 ++ post)
      with (((retag filter <$> p1) ++ h :: p2) ++ post)
      by by rewrite <- (assoc_L (++)).
    rewrite take_drop_reinsert
      by (rewrite !length_app, length_fmap; done).
    by rewrite <- (assoc_L (++)).
Qed.

(** C4. Order preservation: the slice [Map] returns holds, in the order of
    the input, the instances of the input that a ruleset matched, each with
    its assigned type, and nothing else; it is a subsequence of the input
    slice as [Map] leaves it. *)
Theorem order_preserved filter sis out st :
  Map filter sis = (Returns (Some out, None), st) →
  out = omap (emitted filter) sis
  ∧ st = retag filter <$> sis
  ∧ sublist out st.
Proof.
  intros (-> & -> & _)%Map_success.
  repeat split. apply omap_emitted_sublist.
Qed.

(** C9. Idempotence: the scan of an instance depends on its projected
    attributes only, so not on the type an earlier call assigned; a second
    call of [Map] on the slice the first call left returns what the first
    returned and leaves the slice as it was, and a call on the returned
    slice returns that slice. *)
Theorem classification_idempotent filter :
  (∀ si si', project si = project si' → classify filter si = classify filter si')
  ∧ (∀ si ty, classify filter (set_Service_Type si ty) = classify filter si)
  ∧ (∀ sis, Map filter (snd (Map filter sis)) = Map filter sis)
  ∧ (∀ sis out st,
       Map filter sis = (Returns (Some out, None), st) →
       Map filter out = (Returns (Some out, None), out)).
Proof.
  split; [apply classify_project|].
  split; [apply classify_set_Service_Type|].
  split.
  - intros sis.
    destruct (halts_split filter sis)
      as [Hall|(pre & si & post & -> & Hpre & Hsi)].
    + rewrite (Map_ok _ _ Hall). simpl.
      rewrite Map_ok by by apply Forall_halts_retag.
      by rewrite omap_emitted_retag, retag_retag_fmap.
    + rewrite (Map_halt _ _ _ _ Hpre Hsi). simpl.
      rewrite Map_halt; [|by apply Forall_halts_retag|done].
      by rewrite retag_retag_fmap.
  - intros sis out st HMap.
    apply Map_success in HMap as (-> & _ & _).
    assert (Hout : ∀ s, s ∈ omap (emitted filter) sis →
                        halts filter s = false ∧ emitted filter s = Some s
                        ∧ retag filter s = s).
    { intros s (s0 & _ & Hs0)%list_elem_of_omap.
      pose proof (emitted_Some_retag _ _ _ Hs0) as <-.
      rewrite halts_retag, emitted_retag, retag_retag.
      repeat split; [|done].
      unfold emitted, halts in *.
      by destruct (classify filter s0) as [[|ty|err]|]. }
    rewrite Map_ok by (apply Forall_forall; intros s Hs; by apply Hout).
    rewrite omap_emitted_fixed by (intros s Hs; by apply Hout).
    by rewrite fmap_retag_fixed by (intros s Hs; by apply Hout).
Qed.

(** C10. In-place mutation: [Map] writes the assigned type to the element
    of the input slice.  When the call ends with an error at an instance,
    every instance before it that a ruleset matched keeps its assigned
    type in the slice, so the slice differs from the input as soon as one
    of them had another type; the failing instance and those after it are
    as they were.  On success every entry of the returned slice is the
    element the input slice holds at the end. *)
Theorem in_place_mutation filter pre si post (err : error) :
  Forall (λ s, halts filter s = false) pre →
  classify filter si = Returns (Failed err) →
  Map filter (pre ++ si :: post)
  = (Returns (None, Some err), (retag filter <$> pre) ++ si :: post)
  ∧ (∀ i s ty,
       pre !! i = Some s →
       classify filter s = Returns (Found ty) →
       snd (Map filter (pre ++ si :: post)) !! i
       = Some (set_Service_Type s ty))
  ∧ (∀ s ty,
       s ∈ pre →
       classify filter s = Returns (Found ty) →
       Service_Type (Instance_Service s) ≠ ty →
       snd (Map filter (pre ++ si :: post)) ≠ pre ++ si :: post)
  ∧ (∀ sis out st,
       Map filter sis = (Returns (Some out, None), st) →
       ∀ s, s ∈ out → s ∈ st).
Proof.
  intros Hpre Hsi.
  assert (HMap : Map filter (pre ++ si :: post)
                 = (Returns (None, Some err),
                    (retag filter <$> pre) ++ si :: post)).
  { rewrite Map_halt; [|done|unfold halts; by rewrite Hsi]. by rewrite Hsi. }
  assert (Hlookup : ∀ i s ty,
            pre !! i = Some s →
            classify filter s = Returns (Found ty) →
            snd (Map filter (pre ++ si :: post)) !! i
            = Some (set_Service_Type s ty)).
  { intros i s ty Hi Hs. rewrite HMap. simpl.
    rewrite lookup_app_l by (rewrite length_fmap; by eapply lookup_lt_Some).
    rewrite list_lookup_fmap, Hi. simpl. unfold retag. by rewrite Hs. }
  split; [done|]. split; [done|]. split.
  - intros s ty [i Hi]%list_elem_of_lookup Hs Hty Heq.
    specialize (Hlookup i s ty Hi Hs). rewrite Heq in Hlookup.
    rewrite lookup_app_l in Hlookup by by eapply lookup_lt_Some.
    rewrite Hi in Hlookup. injection Hlookup as Hs'.
    apply Hty. by rewrite Hs' at 1.
  - intros sis out st HMap' s Hs.
    apply Map_success in HMap' as (-> & -> & _).
    eapply elem_of_sublist; [done|]. apply omap_emitted_sublist.
Qed.

End MapClaims.

(** ** Construction *)

Section Construction.

Context {E : RuleEngine} {H : Host Value}.

Lemma loadServiceSignatures_nil_error (servicesFile : string) :
  snd (loadServiceSignatures servicesFile) = None
  ↔ snd (ReadFile servicesFile) = None
    ∧ snd (Unmarshal (fst (ReadFile servicesFile))) = None.
Proof.
  unfold loadServiceSignatures.
  destruct (ReadFile servicesFile) as [jsonContent [e|]]; simpl.
  - split; [done | by intros [? _]].
  - destruct (Unmarshal jsonContent) as [signatures [e|]]; simpl;
      (split; [done || by split | done || by intros [_ ?]]).
Qed.

Lemma loadServiceSignatures_loaded (servicesFile : string) :
  snd (ReadFile servicesFile) = None →
  fst (loadServiceSignatures servicesFile)
  = fst (Unmarshal (fst (ReadFile servicesFile))).
Proof.
  unfold loadServiceSignatures.
  destruct (ReadFile servicesFile) as [jsonContent [e|]]; simpl; [done|].
  intros _. by destruct (Unmarshal jsonContent) as [signatures [e|]].
Qed.

(** The loop returns signatures exactly when every file loads, and then
    one per file, after those it started with, in the order of the files. *)
Lemma loadLoop_inl (servicesFiles : list string) :
  ∀ signatures loaded : list (DiscoverySignatures Value),
  loadLoop servicesFiles signatures = inl loaded
  ↔ Forall (λ file, snd (loadServiceSignatures file) = None) servicesFiles
    ∧ loaded
      = signatures ++ ((λ file, fst (loadServiceSignatures file)) <$> servicesFiles).
Proof.
  induction servicesFiles as [|file files IH]; intros signatures loaded; simpl.
  - rewrite app_nil_r. split; [intros [= <-]; by split | by intros [_ ->]].
  - rewrite Forall_cons.
    destruct (loadServiceSignatures file) as [sigs [e|]] eqn:Hfile; simpl.
    + split; [done | by intros [[[=] _] _]].
    + rewrite IH, <- (assoc_L (++)). simpl. tauto.
Qed.

Lemma loadLoop_inr (servicesFiles : list string)
    (signatures : list (DiscoverySignatures Value)) (file : string) :
  file ∈ servicesFiles →
  snd (loadServiceSignatures file) ≠ None →
  ∃ e, loadLoop servicesFiles signatures = inr e.
Proof.
  intros Hfile Herr.
  destruct (loadLoop servicesFiles signatures) as [loaded|e] eqn:Hloop;
    [|by exists e].
  apply loadLoop_inl in Hloop as [Hall _].
  rewrite Forall_forall in Hall. by specialize (Hall file Hfile).
Qed.

(** C5. Construction fails atomically: [NewRuleFilter] returns either a
    filter and no error, or an error and no filter.  It returns the
    missing-configuration error when the list of rule files is empty, and
    an error when some file of the list cannot be read or decoded.  It
    returns a filter exactly when the list is not empty and every file is
    read and decoded, and the filter then holds the decoded signatures of
    all the files in the order of the list. *)
Theorem construction_atomic (name : string) (config : gmap string (list string)) :
  ((∃ filter, NewRuleFilter name config = (Some filter, None))
   ∨ (∃ e, NewRuleFilter name config = (None, Some e)))
  ∧ (∀ plugin,
       NewPlugin name config = (plugin, None) →
       (GetStringSlice (Plugin_Config plugin) "servicesfiles" = [] →
        NewRuleFilter name config
        = (None, Some "servicesFiles configuration value missing"))
       ∧ (∀ file,
            file ∈ GetStringSlice (Plugin_Config plugin) "servicesfiles" →
            snd (ReadFile file) ≠ None
            ∨ snd (Unmarshal (fst (ReadFile file))) ≠ None →
            ∃ e, NewRuleFilter name config = (None, Some e))
       ∧ (GetStringSlice (Plugin_Config plugin) "servicesfiles" ≠ [] →
          Forall (λ file, snd (ReadFile file) = None
                          ∧ snd (Unmarshal (fst (ReadFile file))) = None)
            (GetStringSlice (Plugin_Config plugin) "servicesfiles") →
          NewRuleFilter name config
          = (Some {| RuleFilter_Plugin := plugin;
                     serviceRules :=
                       (λ file, fst (Unmarshal (fst (ReadFile file))))
                       <$> GetStringSlice (Plugin_Config plugin) "servicesfiles" |},
             None)))
  ∧ (∀ filter,
       fst (NewRuleFilter name config) = Some filter →
       NewPlugin name config = (RuleFilter_Plugin filter, None)
       ∧ GetStringSlice (Plugin_Config (RuleFilter_Plugin filter)) "servicesfiles"
         ≠ []
       ∧ Forall (λ file, snd (ReadFile file) = None
                         ∧ snd (Unmarshal (fst (ReadFile file))) = None)
           (GetStringSlice (Plugin_Config (RuleFilter_Plugin filter))
              "servicesfiles")
       ∧ serviceRules filter
         = (λ file, fst (Unmarshal (fst (ReadFile file))))
           <$> GetStringSlice (Plugin_Config (RuleFilter_Plugin filter))
                 "servicesfiles").
Proof.
  unfold NewRuleFilter.
  destruct (NewPlugin name config) as [plugin [e|]] eqn:Hplugin.
  { split; [right; by exists e|]. split; [done|]. by intros filter [=]. }
  set (files := GetStringSlice (Plugin_Config plugin) "servicesfiles").
  assert (Hloaded : ∀ loaded,
            loadLoop files [] = inl loaded →
            Forall (λ file, snd (ReadFile file) = None
                            ∧ snd (Unmarshal (fst (ReadFile file))) = None)
              files
            ∧ loaded
              = (λ file, fst (Unmarshal (fst (ReadFile file)))) <$> files).
  { intros loaded [Hall ->]%loadLoop_inl. simpl.
    assert (Hall' : Forall (λ file, snd (ReadFile file) = None
                     ∧ snd (Unmarshal (fst (ReadFile file))) = None) files).
    { eapply Forall_impl; [done|].
      intros file. by rewrite loadServiceSignatures_nil_error. }
    split; [done|].
    apply list_fmap_ext. intros i file Hfile.
    apply loadServiceSignatures_loaded.
    rewrite Forall_forall in Hall'.
    by apply Hall', list_elem_of_lookup_2 with i. }
  case_bool_decide as Hlen.
  { apply length_zero_iff_nil in Hlen.
    split; [right; by eexists|]. split; [|by intros filter [=]].
    intros plugin' [= <-]. fold files. rewrite Hlen.
    split; [done|]. split; [|done]. by intros file ?%elem_of_nil. }
  assert (Hfiles : files ≠ []) by by intros ?%length_zero_iff_nil.
  destruct (loadLoop files []) as [loaded|e] eqn:Hloop.
  - destruct (Hloaded loaded eq_refl) as [Hall ->].
    split; [left; by eexists|]. split.
    + intros plugin' [= <-]. fold files. split; [done|]. split; [|done].
      intros file Hfile Herr. rewrite Forall_forall in Hall.
      destruct (Hall file Hfile) as [Hread Hdecode]. by destruct Herr.
    + by intros filter [= <-].
  - split; [right; by eexists|]. split; [|by intros filter [=]].
    intros plugin' [= <-]. fold files. split; [done|].
    split; [intros; by eexists|].
    intros _ Hall. exfalso.
    assert (Hall' : Forall (λ file, snd (loadServiceSignatures file) = None)
                      files).
    { eapply Forall_impl; [done|].
      intros file. by rewrite loadServiceSignatures_nil_error. }
    assert (Hinl : loadLoop files [] = inl ([] ++
              ((λ file, fst (loadServiceSignatures file)) <$> files)))
      by by apply loadLoop_inl.
    by rewrite Hloop in Hinl.
Qed.

End Construction.

(** ** The theorems at the example filter *)

(** The nginx instance is matched by the ruleset of type [A] in the first
    file and by the one of type [B] in the second: it gets [A], and [Map]
    returns it between the instances matched before and after it. *)
Lemma first_match_wins_witness :
  classify (E := exampleEngine) exampleFilter nginx = Returns (Found "A")
  ∧ snd (Map (E := exampleEngine) exampleFilter [ redis; nginx; redis ]) !! 1
    = Some (set_Service_Type nginx "A")
  ∧ ∃ si',
      Service_Type (Instance_Service si') = "A"
      ∧ Service_Type (Instance_Service si') ≠ "B"
      ∧ Instance_Container si' = Instance_Container nginx
      ∧ Map (E := exampleEngine) exampleFilter [ nginx ]
        = (Returns (Some [ si' ], None), [ si' ])
      ∧ ∃ out1 out2 st1 st2,
          Map (E := exampleEngine) exampleFilter [ redis ]
          = (Returns (Some out1, None), st1)
          ∧ Map (E := exampleEngine) exampleFilter [ redis ]
            = (Returns (Some out2, None), st2)
          ∧ Map (E := exampleEngine) exampleFilter [ redis; nginx; redis ]
            = (Returns (Some (out1 ++ si' :: out2), None),
               st1 ++ si' :: st2).
Proof.
  destruct (first_match_wins (E := exampleEngine) exampleFilter
              [ redis ] nginx [ redis ]
              [ imageIs "redis" "redis:6" ] [ imageIs "B" "nginx:1" ]
              (imageIs "A" "nginx:1"))
    as (Hclassify & _ & Hslice & _ & si' & Hty & _ & Hcontainer & _
        & Hlater & _ & Halone & Hbatch).
  - reflexivity.
  - constructor; [by vm_compute | constructor].
  - by vm_compute.
  - constructor; [by vm_compute | constructor].
  - split; [exact Hclassify|]. split; [exact Hslice|].
    exists si'. split; [exact Hty|].
    split; [apply (Hlater (imageIs "B" "nginx:1")); [by left|discriminate]|].
    split; [exact Hcontainer|]. split; [exact Halone|].
    apply Hbatch. constructor; [by vm_compute | constructor].
Defined.

(** The postgres instance reaches the ruleset that cannot be compiled; the
    ruleset after it, which would match, is not tried. *)
Lemma fail_fast_witness :
  fst (Map (E := exampleEngine) brokenFilter [ redis; postgres; nginx ])
  = Returns (None, Some "json: unsupported type").
Proof.
  destruct (fail_fast (E := exampleEngine) brokenFilter
              [ redis ] postgres [ nginx ]
              [ imageIs "redis" "redis:6"; imageIs "A" "nginx:1" ]
              [ imageIs "postgres" "postgres:13" ]
              brokenRuleset false "json: unsupported type")
    as [Hfst _].
  - reflexivity.
  - constructor; [by vm_compute|]. constructor; [by vm_compute | constructor].
  - by vm_compute.
  - constructor; [by vm_compute | constructor].
  - exact Hfst.
Defined.

(** No ruleset of the example filter matches the postgres instance. *)
Lemma non_match_excluded_witness :
  Map (E := exampleEngine) exampleFilter [ postgres ]
  = (Returns (Some [], None), [ postgres ])
  ∧ Map (E := exampleEngine) exampleFilter [ nginx; postgres; redis ]
    = (Returns (Some [ set_Service_Type nginx "A";
                       set_Service_Type redis "redis" ], None),
       [ set_Service_Type nginx "A"; postgres;
         set_Service_Type redis "redis" ]).
Proof.
  destruct (non_match_excluded (E := exampleEngine) exampleFilter
              [ nginx ] postgres [ redis ])
    as (_ & _ & Halone & Hbatch).
  - repeat (constructor; [by vm_compute|]). constructor.
  - split; [exact Halone|].
    etransitivity; [exact Hbatch|]. by vm_compute.
Defined.

Lemma order_preserved_witness :
  Map (E := exampleEngine) exampleFilter [ redis; postgres; nginx ]
  = (Returns (Some [ set_Service_Type redis "redis";
                     set_Service_Type nginx "A" ], None),
     [ set_Service_Type redis "redis"; postgres; set_Service_Type nginx "A" ])
  ∧ sublist [ set_Service_Type redis "redis"; set_Service_Type nginx "A" ]
      [ set_Service_Type redis "redis"; postgres; set_Service_Type nginx "A" ].
Proof.
  assert (HMap :
    Map (E := exampleEngine) exampleFilter [ redis; postgres; nginx ]
    = (Returns (Some [ set_Service_Type redis "redis";
                       set_Service_Type nginx "A" ], None),
       [ set_Service_Type redis "redis"; postgres;
         set_Service_Type nginx "A" ])) by by vm_compute.
  split; [exact HMap|].
  exact (proj2 (proj2 (order_preserved (E := exampleEngine) _ _ _ _ HMap))).
Defined.

Lemma classification_idempotent_witness :
  Map (E := exampleEngine) brokenFilter
    (snd (Map (E := exampleEngine) brokenFilter [ redis; postgres; nginx ]))
  = Map (E := exampleEngine) brokenFilter [ redis; postgres; nginx ].
Proof.
  exact (proj1 (proj2 (proj2
           (classification_idempotent (E := exampleEngine) brokenFilter))) _).
Defined.

(** The call fails at the postgres instance; the redis instance before it
    has its type in the caller's slice all the same. *)
Lemma in_place_mutation_witness :
  Map (E := exampleEngine) brokenFilter [ redis; postgres; nginx ]
  = (Returns (None, Some "json: unsupported type"),
     [ set_Service_Type redis "redis"; postgres; nginx ])
  ∧ snd (Map (E := exampleEngine) brokenFilter [ redis; postgres; nginx ])
    ≠ [ redis; postgres; nginx ].
Proof.
  destruct (in_place_mutation (E := exampleEngine) brokenFilter
              [ redis ] postgres [ nginx ] "json: unsupported type")
    as (HMap & _ & Hchanged & _).
  - constructor; [by vm_compute | constructor].
  - by vm_compute.
  - split; [exact HMap|].
    apply (Hchanged redis "redis"); [by left | by vm_compute | discriminate].
Defined.

(** Two readable files make a filter with their signatures in order; no
    file, a missing file or an undecodable file make none. *)
Lemma construction_atomic_witness :
  NewRuleFilter (E := exampleEngine) (H := exampleHost) "rules"
    {[ "servicesfiles" := [ "a.json"; "b.json" ] ]}
  = (Some {| RuleFilter_Plugin :=
               {| Plugin_Name := "rules";
                  Plugin_Config :=
                    {[ "servicesfiles" := [ "a.json"; "b.json" ] ]} |};
             serviceRules := [ fileA; fileB ] |}, None)
  ∧ NewRuleFilter (E := exampleEngine) (H := exampleHost) "rules" ∅
    = (None, Some "servicesFiles configuration value missing")
  ∧ (∃ e, NewRuleFilter (E := exampleEngine) (H := exampleHost) "rules"
            {[ "servicesfiles" := [ "a.json"; "bad.json" ] ]}
          = (None, Some e))
  ∧ (∃ e, NewRuleFilter (E := exampleEngine) (H := exampleHost) "rules"
            {[ "servicesfiles" := [ "a.json"; "missing.json" ] ]}
          = (None, Some e)).
Proof.
  split; [|split; [|split]].
  - destruct (construction_atomic (E := exampleEngine) (H := exampleHost)
                "rules" {[ "servicesfiles" := [ "a.json"; "b.json" ] ]})
      as (_ & Hplugin & _).
    destruct (Hplugin _ eq_refl) as (_ & _ & Hok).
    etransitivity; [apply Hok|by vm_compute].
    + by vm_compute.
    + repeat (constructor; [by vm_compute|]). constructor.
  - destruct (construction_atomic (E := exampleEngine) (H := exampleHost)
                "rules" ∅) as (_ & Hplugin & _).
    destruct (Hplugin _ eq_refl) as (Hempty & _). by apply Hempty.
  - destruct (construction_atomic (E := exampleEngine) (H := exampleHost)
                "rules" {[ "servicesfiles" := [ "a.json"; "bad.json" ] ]})
      as (_ & Hplugin & _).
    destruct (Hplugin _ eq_refl) as (_ & Hfile & _).
    apply (Hfile "bad.json"); [vm_compute; right; left|]. right. by vm_compute.
  - destruct (construction_atomic (E := exampleEngine) (H := exampleHost)
                "rules" {[ "servicesfiles" := [ "a.json"; "missing.json" ] ]})
      as (_ & Hplugin & _).
    destruct (Hplugin _ eq_refl) as (_ & Hfile & _).
    apply (Hfile "missing.json"); [vm_compute; right; left|].
    left. by vm_compute.
Defined.

(** * Further properties of the filter *)

(** ** What a scan that stopped has seen *)

Section ScanInversion.

Context {E : RuleEngine}.
Implicit Types (filter : RuleFilter Value) (si : Instance).
Implicit Types (rs before after : list (DiscoveryRuleset Value)).

(** A scan that did not run to the end stopped at a ruleset that every
    earlier one led to by missing the instance. *)
Lemma rulesetLoop_stopped si rs :
  rulesetLoop si rs ≠ Returns Exhausted →
  ∃ before r after,
    rs = before ++ r :: after
    ∧ Forall (misses si) before
    ∧ matches si r ≠ Returns (false, None)
    ∧ rulesetLoop si rs
      = match matches si r with
        | Panics => Panics
        | Returns (_, Some err) => Returns (Failed err)
        | Returns (true, None) => Returns (Found (Ruleset_Type r))
        | Returns (false, None) => Returns Exhausted
        end.
Proof.
  induction rs as [|r rs IH]; simpl; [done|].
  destruct (matches si r) as [[[|] [e|]]|] eqn:Hr;
    try (intros _; exists [], r, rs; rewrite Hr; by repeat split).
  intros (before & r' & after & -> & Hbefore & Hr' & Hloop)%IH.
  exists (r :: before), r', after. repeat split; [|done|done].
  by constructor.
Qed.

Lemma rulesetLoop_Found si rs (ty : string) :
  rulesetLoop si rs = Returns (Found ty)
  ↔ ∃ before r after,
      rs = before ++ r :: after
      ∧ Forall (misses si) before
      ∧ matches si r = Returns (true, None)
      ∧ Ruleset_Type r = ty.
Proof.
  split.
  - intros Hloop.
    destruct (rulesetLoop_stopped si rs)
      as (before & r & after & -> & Hbefore & _ & Hstop);
      [by rewrite Hloop|].
    exists before, r, after. rewrite Hloop in Hstop.
    destruct (matches si r) as [[[|] [e|]]|]; naive_solver.
  - intros (before & r & after & -> & Hbefore & Hr & <-).
    by rewrite rulesetLoop_first, Hr.
Qed.

Lemma rulesetLoop_Failed si rs (err : error) :
  rulesetLoop si rs = Returns (Failed err)
  ↔ ∃ before r after b,
      rs = before ++ r :: after
      ∧ Forall (misses si) before
      ∧ matches si r = Returns (b, Some err).
Proof.
  split.
  - intros Hloop.
    destruct (rulesetLoop_stopped si rs)
      as (before & r & after & -> & Hbefore & _ & Hstop);
      [by rewrite Hloop|].
    exists before, r, after. rewrite Hloop in Hstop.
    destruct (matches si r) as [[b [e|]]|]; [|by destruct b|done].
    exists b. assert (e = err) as -> by (destruct b; by injection Hstop).
    done.
  - intros (before & r & after & b & -> & Hbefore & Hr).
    rewrite rulesetLoop_first, Hr by done. by destruct b.
Qed.

Lemma rulesetLoop_Panics si rs :
  rulesetLoop si rs = Panics
  ↔ ∃ before r after,
      rs = before ++ r :: after
      ∧ Forall (misses si) before
      ∧ matches si r = Panics.
Proof.
  split.
  - intros Hloop.
    destruct (rulesetLoop_stopped si rs)
      as (before & r & after & -> & Hbefore & _ & Hstop);
      [by rewrite Hloop|].
    exists before, r, after. rewrite Hloop in Hstop.
    by destruct (matches si r) as [[[|] [e|]]|].
  - intros (before & r & after & -> & Hbefore & Hr).
    by rewrite rulesetLoop_first, Hr.
Qed.

(** X1. A type is assigned only through a match: the scan of an instance
    ends with a type exactly when some ruleset of the filter, in the order
    [Map] tries them, has that type and matches the instance while every
    ruleset before it misses it; it ends with an error exactly when
    [matches] returned that error on the first ruleset that did not miss;
    it ends without either exactly when every ruleset misses. *)
Theorem classify_outcomes filter si :
  (∀ ty, classify filter si = Returns (Found ty)
         ↔ ∃ before r after,
             rulesets filter = before ++ r :: after
             ∧ Forall (misses si) before
             ∧ matches si r = Returns (true, None)
             ∧ Ruleset_Type r = ty)
  ∧ (∀ err, classify filter si = Returns (Failed err)
            ↔ ∃ before r after b,
                rulesets filter = before ++ r :: after
                ∧ Forall (misses si) before
                ∧ matches si r = Returns (b, Some err))
  ∧ (classify filter si = Panics
     ↔ ∃ before r after,
         rulesets filter = before ++ r :: after
         ∧ Forall (misses si) before
         ∧ matches si r = Panics)
  ∧ (classify filter si = Returns Exhausted
     ↔ Forall (misses si) (rulesets filter)).
Proof.
  rewrite classify_rulesets.
  split; [intros ty; apply rulesetLoop_Found|].
  split; [intros err; apply rulesetLoop_Failed|].
  split; [apply rulesetLoop_Panics | apply rulesetLoop_misses].
Qed.

(** X2. Every instance [Map] returns carries the type of a ruleset of the
    filter that matches it: the first one, in the order [Map] tries them,
    that does not miss it. *)
Theorem Map_output_types filter (sis out st : Instances) :
  Map filter sis = (Returns (Some out, None), st) →
  ∀ s, s ∈ out →
    ∃ before r after,
      rulesets filter = before ++ r :: after
      ∧ Forall (misses s) before
      ∧ matches s r = Returns (true, None)
      ∧ Service_Type (Instance_Service s) = Ruleset_Type r.
Proof.
  intros (-> & _ & _)%Map_success s (s0 & _ & Hs0)%list_elem_of_omap.
  unfold emitted in Hs0.
  destruct (classify filter s0) as [[|ty|err]|] eqn:Hclassify; try done.
  injection Hs0 as <-.
  rewrite <- (classify_set_Service_Type filter s0 ty) in Hclassify.
  rewrite classify_rulesets in Hclassify.
  apply rulesetLoop_Found in Hclassify
    as (before & r & after & Hrs & Hbefore & Hr & Hty).
  by exists before, r, after.
Qed.

End ScanInversion.

Lemma classify_outcomes_witness :
  ∃ before r after,
    rulesets (E := exampleEngine) exampleFilter = before ++ r :: after
    ∧ Forall (misses (E := exampleEngine) nginx) before
    ∧ matches (E := exampleEngine) nginx r = Returns (true, None)
    ∧ Ruleset_Type r = "A".
Proof.
  apply (proj1 (classify_outcomes (E := exampleEngine) exampleFilter nginx)).
  by vm_compute.
Defined.

Lemma Map_output_types_witness :
  ∃ before r after,
    rulesets (E := exampleEngine) exampleFilter = before ++ r :: after
    ∧ Forall (misses (E := exampleEngine) (set_Service_Type nginx "A")) before
    ∧ matches (E := exampleEngine) (set_Service_Type nginx "A") r
      = Returns (true, None)
    ∧ Service_Type (Instance_Service (set_Service_Type nginx "A"))
      = Ruleset_Type r.
Proof.
  apply (Map_output_types (E := exampleEngine) exampleFilter
           [ postgres; nginx ] [ set_Service_Type nginx "A" ]
           [ postgres; set_Service_Type nginx "A" ]).
  - by vm_compute.
  - by left.
Defined.

(** ** The slice as [Map] leaves it, and batches put together *)

Section Batches.

Context {E : RuleEngine}.
Implicit Types (filter : RuleFilter Value) (si : Instance).
Implicit Types (sis pre post out st : Instances).

(** However the call ends, [Map] has retyped the matched instances of a
    prefix of the slice and touched nothing else. *)
Lemma Map_state filter sis :
  ∃ n, snd (Map filter sis) = (retag filter <$> take n sis) ++ drop n sis.
Proof.
  destruct (halts_split filter sis)
    as [Hall|(pre & si & post & -> & Hpre & Hsi)].
  - exists (length sis). rewrite Map_ok by done. simpl.
    by rewrite firstn_all, drop_all, app_nil_r.
  - exists (length pre). rewrite Map_halt by done. simpl.
    by rewrite take_app_length, drop_app_length.
Qed.

Lemma instanceLoop_ext (filter1 filter2 : RuleFilter Value) (indices : list nat) :
  (∀ si, classify filter1 si = classify filter2 si) →
  ∀ sis acc,
    instanceLoop filter1 indices sis acc = instanceLoop filter2 indices sis acc.
Proof.
  intros Hsame. unfold classify in Hsame.
  induction indices as [|i indices IH]; intros sis acc; simpl; [done|].
  destruct (sis !! i) as [si|]; [|done]. rewrite Hsame.
  destruct (signatureLoop si (serviceRules filter2)) as [[|ty|err]|];
    try done.
  by destruct (<[i:=set_Service_Type si ty]> sis !! i).
Qed.

Lemma retag_frame filter si :
  Instance_Container (retag filter si) = Instance_Container si
  ∧ Instance_Port (retag filter si) = Instance_Port si
  ∧ Service_Name (Instance_Service (retag filter si))
    = Service_Name (Instance_Service si)
  ∧ (retag filter si = si
     ∨ ∃ ty, classify filter si = Returns (Found ty)
             ∧ retag filter si = set_Service_Type si ty).
Proof.
  unfold retag. destruct (classify filter si) as [[|ty|err]|]; eauto 10.
Qed.

(** X3. Frame of [Map]: however the call ends (with a slice, an error or
    a panic), the caller's slice keeps its length, and every element keeps
    its container, its port and its service name; an element is either as
    it was or has the type its scan found.  A returned slice is never
    longer than the input. *)
Theorem Map_frame filter sis :
  length (snd (Map filter sis)) = length sis
  ∧ Forall2
      (λ s s',
         Instance_Container s' = Instance_Container s
         ∧ Instance_Port s' = Instance_Port s
         ∧ Service_Name (Instance_Service s')
           = Service_Name (Instance_Service s)
         ∧ (s' = s
            ∨ ∃ ty, classify filter s = Returns (Found ty)
                    ∧ s' = set_Service_Type s ty))
      sis (snd (Map filter sis))
  ∧ (∀ out err,
       fst (Map filter sis) = Returns (Some out, err) →
       (length out ≤ length sis)%nat).
Proof.
  destruct (Map_state filter sis) as [n Hst].
  split; [|split].
  - rewrite Hst, length_app, length_fmap, <- length_app.
    by rewrite take_drop.
  - rewrite Hst. rewrite <- (take_drop n sis) at 1.
    apply Forall2_app.
    + apply Forall2_fmap_r, Forall_Forall2_diag, Forall_forall.
      intros s _. apply retag_frame.
    + apply Forall_Forall2_diag, Forall_forall. intros s _. eauto 10.
  - intros out err Hout.
    destruct (Map filter sis) as [res st] eqn:HMap. simpl in Hout. subst res.
    apply Map_success in HMap as (-> & _ & _).
    rewrite <- (length_fmap (retag filter) sis).
    apply sublist_length, omap_emitted_sublist.
Qed.

(** X4. Batches compose: [Map] on two batches put together does what it
    does on the first and then, if that returned a slice, what it does on
    the second; the returned slices and the slices left behind are put
    together in the same order.  When the first batch ends the call, the
    second is left as it was. *)
Theorem Map_app filter sis1 sis2 :
  Map filter (sis1 ++ sis2)
  = match Map filter sis1 with
    | (Returns (Some out1, None), st1) =>
        match Map filter sis2 with
        | (Returns (Some out2, None), st2) =>
            (Returns (Some (out1 ++ out2), None), st1 ++ st2)
        | (ended, st2) => (ended, st1 ++ st2)
        end
    | (ended, st1) => (ended, st1 ++ sis2)
    end.
Proof.
  destruct (halts_split filter sis1)
    as [Hall1|(p1 & h & p2 & -> & Hp1 & Hh)].
  - rewrite (Map_ok filter sis1) by done.
    destruct (halts_split filter sis2)
      as [Hall2|(q1 & h & q2 & -> & Hq1 & Hh)].
    + rewrite !Map_ok by (rewrite ?Forall_app; done).
      by rewrite omap_app, fmap_app.
    + rewrite (assoc_L (++)).
      rewrite !Map_halt by (rewrite ?Forall_app; done).
      rewrite fmap_app, <- (assoc_L (++)).
      unfold halts in Hh.
      by destruct (classify filter h) as [[|ty|err]|].
  - rewrite <- (assoc_L (++)). simpl.
    rewrite !Map_halt by done. rewrite <- (assoc_L (++)). simpl.
    unfold halts in Hh.
    by destruct (classify filter h) as [[|ty|err]|].
Qed.

(** X5. [Map] sees the rules of a filter only as one list: two filters
    with the same rulesets in the same order, however these are spread
    over rule files and whatever the files and the plugin are called, do
    the same on every batch. *)
Theorem Map_rulesets_only (filter1 filter2 : RuleFilter Value) sis :
  rulesets filter1 = rulesets filter2 →
  Map filter1 sis = Map filter2 sis.
Proof.
  intros Hrs. apply instanceLoop_ext.
  intros si. by rewrite !classify_rulesets, Hrs.
Qed.

(** X6. A filter whose rule files hold no ruleset returns an empty slice,
    not nil, on every batch, with no error and no panic, also on
    instances without a name, and leaves the batch as it was; every
    filter does so on the empty batch. *)
Theorem Map_nothing_to_match filter :
  (∀ sis, rulesets filter = [] →
          Map filter sis = (Returns (Some [], None), sis))
  ∧ Map filter [] = (Returns (Some [], None), []).
Proof.
  split; [|done].
  intros sis Hrs.
  assert (Hclassify : ∀ si, classify filter si = Returns Exhausted)
    by (intros si; by rewrite classify_rulesets, Hrs).
  rewrite Map_ok
    by (apply Forall_forall; intros si _; unfold halts;
        by rewrite Hclassify).
  f_equal; [do 2 f_equal|].
  - induction sis as [|si sis IH]; csimpl; [done|].
    unfold emitted at 1. by rewrite Hclassify.
  - apply fmap_retag_fixed. intros si _. unfold retag.
    by rewrite Hclassify.
Qed.

(** X7. The order of a batch decides neither whether [Map] returns a
    slice nor which instances are in it: when [Map] returns a slice on a
    batch, it returns one on every reordering of the batch, with the same
    instances, and leaves the same instances behind. *)
Theorem Map_Permutation filter sis sis' out st :
  sis ≡ₚ sis' →
  Map filter sis = (Returns (Some out, None), st) →
  ∃ out' st',
    Map filter sis' = (Returns (Some out', None), st')
    ∧ out ≡ₚ out' ∧ st ≡ₚ st'.
Proof.
  intros Hperm HMap.
  pose proof (Map_Returns_Some _ _ _ _ _ HMap) as Hall.
  apply Map_success in HMap as (-> & -> & _).
  rewrite Hperm in Hall.
  eexists _, _. split; [by apply Map_ok|].
  by rewrite Hperm.
Qed.

End Batches.

Lemma Map_rulesets_only_witness :
  Map (E := exampleEngine) exampleFilter [ postgres; nginx; redis ]
  = Map (E := exampleEngine)
      {| RuleFilter_Plugin := {| Plugin_Name := "other"; Plugin_Config := ∅ |};
         serviceRules :=
           [ {| Signatures_Name := "one"; Signatures := [] |};
             {| Signatures_Name := "all";
                Signatures := [ imageIs "redis" "redis:6";
                                imageIs "A" "nginx:1";
                                imageIs "B" "nginx:1" ] |} ] |}
      [ postgres; nginx; redis ].
Proof.
  apply (Map_rulesets_only (E := exampleEngine)). reflexivity.
Defined.

Lemma Map_nothing_to_match_witness :
  Map (E := exampleEngine)
    {| RuleFilter_Plugin := examplePlugin;
       serviceRules := [ {| Signatures_Name := "none"; Signatures := [] |} ] |}
    [ nameless; redis ]
  = (Returns (Some [], None), [ nameless; redis ]).
Proof.
  apply (proj1 (Map_nothing_to_match (E := exampleEngine) _)). reflexivity.
Defined.

Lemma Map_Permutation_witness :
  ∃ out' st',
    Map (E := exampleEngine) exampleFilter [ redis; postgres; nginx ]
    = (Returns (Some out', None), st')
    ∧ [ set_Service_Type redis "redis"; set_Service_Type nginx "A" ] ≡ₚ out'
    ∧ [ postgres; set_Service_Type redis "redis"; set_Service_Type nginx "A" ]
      ≡ₚ st'.
Proof.
  apply (Map_Permutation (E := exampleEngine) exampleFilter
           [ postgres; redis; nginx ]).
  - apply Permutation_swap.
  - by vm_compute.
Defined.

(** ** Rulesets that cannot be compiled, instances without a name *)

Section Failures.

Context {E : RuleEngine}.
Implicit Types (filter : RuleFilter Value) (si : Instance).
Implicit Types (sis pre post : Instances).

(** The error of a ruleset that cannot be compiled does not depend on the
    instance: [matches] returns before it looks at the instance. *)
Lemma matches_not_compiles (ruleset : DiscoveryRuleset Value) :
  ¬ compiles ruleset →
  ∃ err, ∀ si, matches si ruleset = Returns (false, Some err).
Proof.
  intros Hbroken. unfold matches.
  destruct (Marshal (Ruleset_Rules ruleset)) as [jsonRules [e|]] eqn:Hjson;
    [by exists e|].
  destruct (NewRulerWithJson jsonRules) as [engine [e|]] eqn:Hengine;
    [by exists e|].
  destruct Hbroken. by exists jsonRules, engine.
Qed.

Lemma matches_named si (ruleset : DiscoveryRuleset Value) :
  Container_Names (Instance_Container si) ≠ [] →
  matches si ruleset ≠ Panics.
Proof.
  intros Hnames. unfold matches, project, fixedAttributes.
  destruct (Marshal (Ruleset_Rules ruleset)) as [jsonRules [e|]]; [done|].
  destruct (NewRulerWithJson jsonRules) as [engine [e|]]; [done|].
  by destruct (Container_Names (Instance_Container si)).
Qed.

Lemma matches_nameless si (ruleset : DiscoveryRuleset Value) :
  Container_Names (Instance_Container si) = [] →
  compiles ruleset →
  matches si ruleset = Panics.
Proof.
  intros Hnames (jsonRules & engine & Hjson & Hengine).
  unfold matches, project, fixedAttributes.
  by rewrite Hjson, Hengine, Hnames.
Qed.

(** X8. A ruleset that cannot be compiled, standing first in the filter,
    fails every call of [Map] on a batch that is not empty: the call
    returns the error of the compilation, the same for every batch, with
    a nil slice, at the first instance, whether or not that instance has
    a name, and leaves the batch as it was. *)
Theorem first_ruleset_broken filter (r : DiscoveryRuleset Value)
    (rest : list (DiscoveryRuleset Value)) :
  rulesets filter = r :: rest →
  ¬ compiles r →
  ∃ err, ∀ si sis,
    Map filter (si :: sis) = (Returns (None, Some err), si :: sis).
Proof.
  intros Hrs [err Herr]%matches_not_compiles.
  exists err. intros si sis.
  assert (Hsi : classify filter si = Returns (Failed err)).
  { rewrite (classify_first filter si [] rest r Hrs) by constructor.
    by rewrite Herr. }
  pose proof (Map_halt filter [] si sis) as HMap. simpl in HMap.
  rewrite HMap; [|constructor|unfold halts; by rewrite Hsi].
  by rewrite Hsi.
Qed.

(** X9. [Map] panics on instances without a name only: on a batch whose
    instances all have a name it returns, with a slice or with an error,
    whatever the rules are. *)
Theorem Map_named_no_panic filter sis :
  Forall (λ si, Container_Names (Instance_Container si) ≠ []) sis →
  fst (Map filter sis) ≠ Panics.
Proof.
  intros Hnamed.
  destruct (halts_split filter sis)
    as [Hall|(pre & si & post & -> & Hpre & Hsi)].
  { by rewrite Map_ok. }
  rewrite Map_halt by done. simpl.
  destruct (classify filter si) as [[|ty|err]|] eqn:Hclassify; try done.
  - unfold halts in Hsi. by rewrite Hclassify in Hsi.
  - unfold halts in Hsi. by rewrite Hclassify in Hsi.
  - rewrite classify_rulesets in Hclassify.
    apply rulesetLoop_Panics in Hclassify
      as (before & r & after & _ & _ & Hpanics).
    apply Forall_app in Hnamed as [_ [Hname _]%Forall_cons].
    by apply matches_named in Hpanics.
Qed.

(** X10. An instance without a name ends the call with a panic as soon as
    the first ruleset of the filter can be compiled: [Map] panics when it
    reaches the instance, having already written the types of the matched
    instances before it to the slice. *)
Theorem Map_nameless_panics filter pre si post (r : DiscoveryRuleset Value)
    (rest : list (DiscoveryRuleset Value)) :
  Container_Names (Instance_Container si) = [] →
  rulesets filter = r :: rest →
  compiles r →
  Forall (λ s, halts filter s = false) pre →
  Map filter (pre ++ si :: post)
  = (Panics, (retag filter <$> pre) ++ si :: post).
Proof.
  intros Hnames Hrs Hr Hpre.
  assert (Hsi : classify filter si = Panics).
  { rewrite (classify_first filter si [] rest r Hrs) by constructor.
    by rewrite (matches_nameless si r Hnames Hr). }
  rewrite Map_halt; [|done|unfold halts; by rewrite Hsi].
  by rewrite Hsi.
Qed.

(** X11. Rule files put one after the other: the scan of an instance over
    the files [signatures ++ more] is its scan over [signatures], and goes
    on to [more] only when [signatures] is exhausted.  A type found, an
    error or a panic in the earlier files is not changed by files added
    after them. *)
Theorem classify_app (plugin1 plugin2 plugin : Plugin)
    (signatures more : list (DiscoverySignatures Value)) si :
  classify {| RuleFilter_Plugin := plugin;
              serviceRules := signatures ++ more |} si
  = match classify {| RuleFilter_Plugin := plugin1;
                      serviceRules := signatures |} si with
    | Returns Exhausted =>
        classify {| RuleFilter_Plugin := plugin2; serviceRules := more |} si
    | ended => ended
    end.
Proof.
  rewrite !classify_rulesets. unfold rulesets. simpl.
  by rewrite fmap_app, concat_app, rulesetLoop_app.
Qed.

End Failures.

Lemma first_ruleset_broken_witness :
  ∃ err, ∀ si sis,
    Map (E := exampleEngine)
      {| RuleFilter_Plugin := examplePlugin; serviceRules := [ fileBroken ] |}
      (si :: sis)
    = (Returns (None, Some err), si :: sis).
Proof.
  apply (first_ruleset_broken (E := exampleEngine) _ brokenRuleset
           [ imageIs "postgres" "postgres:13" ]).
  - reflexivity.
  - intros (jsonRules & engine & Hjson & _). by vm_compute in Hjson.
Defined.

Lemma Map_named_no_panic_witness :
  fst (Map (E := exampleEngine) brokenFilter [ redis; postgres; nginx ])
  ≠ Panics.
Proof.
  apply (Map_named_no_panic (E := exampleEngine)).
  repeat (constructor; [discriminate|]). constructor.
Defined.

Lemma Map_nameless_panics_witness :
  Map (E := exampleEngine) exampleFilter [ redis; nameless; nginx ]
  = (Panics, [ set_Service_Type redis "redis"; nameless; nginx ]).
Proof.
  apply (Map_nameless_panics (E := exampleEngine) exampleFilter
           [ redis ] nameless [ nginx ] (imageIs "redis" "redis:6")
           [ imageIs "A" "nginx:1"; imageIs "B" "nginx:1" ]).
  - reflexivity.
  - reflexivity.
  - eexists _, _. split; reflexivity.
  - constructor; [by vm_compute | constructor].
Defined.

(** ** The attribute map, entry by entry *)

Lemma addLabels_size (p : string) (labels sm : gmap string string) :
  (∀ k, sm !! (p +:+ k) = None) →
  size (addLabels p labels sm) = size sm + size labels.
Proof.
  intros Hfresh. unfold addLabels.
  apply (map_fold_weak_ind
    (λ r (m : gmap string string),
       size r = size sm + size m
       ∧ ∀ k, m !! k = None → r !! (p +:+ k) = None)).
  - rewrite map_size_empty. split; [lia|auto].
  - intros i x m r Hi [IHsize IHfresh]. split.
    + rewrite !map_size_insert_None by auto. lia.
    + intros k Hk. apply lookup_insert_None in Hk as [Hk Hne].
      rewrite lookup_insert_ne; [by apply IHfresh|].
      intros Heq. apply Hne. by eapply append_inj.
Qed.

Lemma fixedAttributes_label_None (si : Instance) (fm : gmap string string)
    (key : string) :
  fixedAttributes si = Returns fm →
  isLabelKey key = true →
  fm !! key = None.
Proof.
  intros Hfm Hkey. apply eq_None_not_Some.
  intros Hin%(fixedAttributes_dom si fm key Hfm).
  apply isLabelKey_fixedKeys in Hin. congruence.
Qed.

Lemma fixedAttributes_size (si : Instance) (fm : gmap string string) :
  fixedAttributes si = Returns fm → size fm = 10.
Proof.
  unfold fixedAttributes.
  destruct (Container_Names (Instance_Container si)); [done|].
  intros [= <-].
  by rewrite !map_size_insert_None, map_size_empty by by simplify_map_eq.
Qed.

Lemma project_lookup_ContainerLabel (si : Instance) (sm : gmap string string)
    (k : string) :
  project si = Returns sm →
  sm !! ("ContainerLabel-" +:+ k)
  = Container_Labels (Instance_Container si) !! k.
Proof.
  unfold project. destruct (fixedAttributes si) as [fm|] eqn:Hfm; [|done].
  intros [= <-].
  rewrite addLabels_lookup_other by (intros ? ?; simplify_eq/=).
  rewrite addLabels_lookup_label.
  destruct (Container_Labels (Instance_Container si) !! k); [done|].
  apply (fixedAttributes_label_None si fm _ Hfm).
  unfold isLabelKey. by rewrite prefix_append.
Qed.

Lemma project_lookup_NetworkLabel (si : Instance) (sm : gmap string string)
    (k : string) :
  project si = Returns sm →
  sm !! ("NetworkLabel-" +:+ k) = Port_Labels (Instance_Port si) !! k.
Proof.
  unfold project. destruct (fixedAttributes si) as [fm|] eqn:Hfm; [|done].
  intros [= <-].
  rewrite addLabels_lookup_label.
  destruct (Port_Labels (Instance_Port si) !! k); [done|].
  rewrite addLabels_lookup_other by (intros ? ?; simplify_eq/=).
  apply (fixedAttributes_label_None si fm _ Hfm).
  unfold isLabelKey. by rewrite prefix_append, orb_true_r.
Qed.

(** X12. The attribute map has one entry for each of the ten fields and
    one for each label, and no other: its size is ten plus the numbers of
    container labels and of port labels; the attribute under
    [ContainerLabel-k] is present exactly when the container has the
    label [k], with its value, and likewise [NetworkLabel-k] for the port;
    every other key of the map is one of the ten. *)
Theorem attribute_map_entries (si : Instance) (sm : gmap string string) :
  project si = Returns sm →
  size sm
  = 10 + size (Container_Labels (Instance_Container si))
    + size (Port_Labels (Instance_Port si))
  ∧ (∀ k, sm !! ("ContainerLabel-" +:+ k)
          = Container_Labels (Instance_Container si) !! k)
  ∧ (∀ k, sm !! ("NetworkLabel-" +:+ k)
          = Port_Labels (Instance_Port si) !! k)
  ∧ (∀ key, is_Some (sm !! key) →
            key ∈ fixedKeys
            ∨ (∃ k, key = "ContainerLabel-" +:+ k)
            ∨ (∃ k, key = "NetworkLabel-" +:+ k)).
Proof.
  intros Hsm.
  split; [|split; [|split]].
  - unfold project in Hsm.
    destruct (fixedAttributes si) as [fm|] eqn:Hfm; [|done].
    injection Hsm as <-.
    rewrite !addLabels_size, (fixedAttributes_size si fm Hfm); [done| |].
    + intros k. apply (fixedAttributes_label_None si fm _ Hfm).
      unfold isLabelKey. by rewrite prefix_append.
    + intros k.
      rewrite addLabels_lookup_other by (intros ? ?; simplify_eq/=).
      apply (fixedAttributes_label_None si fm _ Hfm).
      unfold isLabelKey. by rewrite prefix_append, orb_true_r.
  - intros k. by apply project_lookup_ContainerLabel.
  - intros k. by apply project_lookup_NetworkLabel.
  - intros key Hkey.
    destruct (isLabelKey key) eqn:Hlabel.
    + right. unfold isLabelKey in Hlabel.
      apply orb_true_iff in Hlabel as [Hp|Hp]; apply prefix_inv in Hp; auto.
    + left.
      destruct (project_Returns si sm Hsm) as (fm & _ & _ & _ & Hfm & _).
      rewrite (project_lookup_fixed si fm sm key Hfm Hsm Hlabel) in Hkey.
      by apply (fixedAttributes_dom si fm key Hfm).
Qed.

Lemma attribute_map_entries_witness :
  ∃ sm, project redis = Returns sm
        ∧ size sm = 12
        ∧ sm !! "ContainerLabel-app" = Some "web"
        ∧ sm !! "ContainerLabel-tier" = None
        ∧ sm !! "NetworkLabel-app" = Some "http".
Proof.
  eexists. split; [reflexivity|].
  destruct (attribute_map_entries redis _ eq_refl)
    as (Hsize & Hcontainer & Hnetwork & _).
  split; [exact Hsize|].
  split; [exact (Hcontainer "app")|].
  split; [exact (Hcontainer "tier") | exact (Hnetwork "app")].
Defined.

Lemma FormatUint_inj (n m : N) : FormatUint n = FormatUint m → n = m.
Proof.
  intros Heq. pose proof (ParseUint_FormatUint n) as Hn.
  rewrite Heq, ParseUint_FormatUint in Hn. by injection Hn.
Qed.

(** The ten fields can be read back from the attribute map. *)
Lemma project_fixedAttributes (si : Instance) (fm sm : gmap string string) :
  fixedAttributes si = Returns fm →
  project si = Returns sm →
  fm = filter (λ kv, isLabelKey kv.1 = false) sm.
Proof.
  intros Hfm Hsm. apply map_eq. intros key.
  destruct (isLabelKey key) eqn:Hlabel.
  - rewrite (fixedAttributes_label_None si fm key Hfm Hlabel).
    symmetry. apply map_lookup_filter_None. right.
    intros v _. simpl. by rewrite Hlabel.
  - rewrite <- (project_lookup_fixed si fm sm key Hfm Hsm Hlabel).
    destruct (sm !! key) as [v|] eqn:Hkey.
    + symmetry. by apply map_lookup_filter_Some.
    + symmetry. apply map_lookup_filter_None. by left.
Qed.

(** X13. The attribute map tells instances apart as far as the rules can
    see them: two instances with the same attribute map have the same
    container id, first name, image, pod, command and state, the same
    address, kind and port numbers, and the same container and port
    labels.  The other names of the container and the service record are
    not in the map. *)
Theorem project_inj (si si' : Instance) (sm : gmap string string) :
  project si = Returns sm →
  project si' = Returns sm →
  Container_ID (Instance_Container si) = Container_ID (Instance_Container si')
  ∧ head (Container_Names (Instance_Container si))
    = head (Container_Names (Instance_Container si'))
  ∧ Container_Image (Instance_Container si)
    = Container_Image (Instance_Container si')
  ∧ Container_Pod (Instance_Container si)
    = Container_Pod (Instance_Container si')
  ∧ Container_Command (Instance_Container si)
    = Container_Command (Instance_Container si')
  ∧ Container_State (Instance_Container si)
    = Container_State (Instance_Container si')
  ∧ Container_Labels (Instance_Container si)
    = Container_Labels (Instance_Container si')
  ∧ Port_IP (Instance_Port si) = Port_IP (Instance_Port si')
  ∧ Port_Type (Instance_Port si) = Port_Type (Instance_Port si')
  ∧ Port_PublicPort (Instance_Port si) = Port_PublicPort (Instance_Port si')
  ∧ Port_PrivatePort (Instance_Port si) = Port_PrivatePort (Instance_Port si')
  ∧ Port_Labels (Instance_Port si) = Port_Labels (Instance_Port si').
Proof.
  intros Hsm Hsm'.
  assert (Hcl : Container_Labels (Instance_Container si)
                = Container_Labels (Instance_Container si')).
  { apply map_eq. intros k.
    by rewrite <- (project_lookup_ContainerLabel si sm k Hsm),
               <- (project_lookup_ContainerLabel si' sm k Hsm'). }
  assert (Hpl : Port_Labels (Instance_Port si)
                = Port_Labels (Instance_Port si')).
  { apply map_eq. intros k.
    by rewrite <- (project_lookup_NetworkLabel si sm k Hsm),
               <- (project_lookup_NetworkLabel si' sm k Hsm'). }
  destruct (project_Returns si sm Hsm)
    as (fm & name0 & names & Hnames & Hfm & _).
  destruct (project_Returns si' sm Hsm')
    as (fm' & name0' & names' & Hnames' & Hfm' & _).
  assert (Hsame : ∀ key, fm !! key = fm' !! key).
  { intros key.
    by rewrite (project_fixedAttributes si fm sm Hfm Hsm),
               (project_fixedAttributes si' fm' sm Hfm' Hsm'). }
  unfold fixedAttributes in Hfm, Hfm'. rewrite Hnames in Hfm.
  rewrite Hnames' in Hfm'. injection Hfm as <-. injection Hfm' as <-.
  rewrite Hnames, Hnames'. simpl head.
  pose proof (Hsame "ContainerID") as Hid.
  pose proof (Hsame "ContainerName") as Hname.
  pose proof (Hsame "ContainerImage") as Himage.
  pose proof (Hsame "ContainerPod") as Hpod.
  pose proof (Hsame "ContainerCommand") as Hcommand.
  pose proof (Hsame "ContainerState") as Hstate.
  pose proof (Hsame "NetworkIP") as Hip.
  pose proof (Hsame "NetworkType") as Htype.
  pose proof (Hsame "NetworkPublicPort") as Hpublic.
  pose proof (Hsame "NetworkPrivatePort") as Hprivate.
  clear Hsame. simplify_map_eq.
  repeat split; try done; by apply FormatUint_inj.
Qed.

Lemma project_inj_witness :
  Container_Image (Instance_Container (set_Service_Type redis "redis"))
  = Container_Image (Instance_Container redis)
  ∧ Port_PublicPort (Instance_Port (set_Service_Type redis "redis"))
    = Port_PublicPort (Instance_Port redis)
  ∧ Port_Labels (Instance_Port (set_Service_Type redis "redis"))
    = Port_Labels (Instance_Port redis).
Proof.
  destruct (project_inj (set_Service_Type redis "redis") redis _
              eq_refl eq_refl)
    as (_ & _ & Himage & _ & _ & _ & _ & _ & _ & Hpublic & _ & Hlabels).
  exact (conj Himage (conj Hpublic Hlabels)).
Defined.

(** ** The error of a construction that fails *)

Section ConstructionErrors.

Context {E : RuleEngine} {H : Host Value}.

(** The loop ends with the error of the first file that does not load. *)
Lemma loadLoop_first_error (good rest : list string) (bad : string)
    (e : error) :
  ∀ signatures : list (DiscoverySignatures Value),
  Forall (λ file, snd (loadServiceSignatures file) = None) good →
  snd (loadServiceSignatures bad) = Some e →
  loadLoop (good ++ bad :: rest) signatures = inr e.
Proof.
  induction good as [|file good IH]; intros signatures Hgood Hbad; simpl.
  - destruct (loadServiceSignatures bad) as [loaded err]. simpl in Hbad.
    by subst err.
  - apply Forall_cons in Hgood as [Hfile Hgood].
    destruct (loadServiceSignatures file) as [loaded err]. simpl in Hfile.
    subst err. by apply IH.
Qed.

Lemma loadServiceSignatures_error (servicesFile : string) (e : error) :
  snd (ReadFile servicesFile) = Some e
  ∨ (snd (ReadFile servicesFile) = None
     ∧ snd (Unmarshal (fst (ReadFile servicesFile))) = Some e) →
  snd (loadServiceSignatures servicesFile) = Some e.
Proof.
  unfold loadServiceSignatures.
  destruct (ReadFile servicesFile) as [jsonContent [e'|]]; simpl.
  - by intros [?|[? _]].
  - intros [?|[_ Hdecode]]; [done|].
    destruct (Unmarshal jsonContent) as [signatures [e'|]]; by simpl in *.
Qed.

(** X14. The error [NewRuleFilter] returns is the first one it meets: the
    error of [plugins.NewPlugin] if that fails, whatever the files hold;
    otherwise, for a list of files of which the first ones load, the error
    of the first file that does not load, which is the error of reading
    it, or of decoding it when it can be read; the files after it play no
    part. *)
Theorem NewRuleFilter_first_error (name : string)
    (config : gmap string (list string)) :
  (∀ plugin e,
     NewPlugin name config = (plugin, Some e) →
     NewRuleFilter name config = (None, Some e))
  ∧ (∀ plugin good bad rest e,
       NewPlugin name config = (plugin, None) →
       GetStringSlice (Plugin_Config plugin) "servicesfiles"
       = good ++ bad :: rest →
       Forall (λ file, snd (ReadFile file) = None
                       ∧ snd (Unmarshal (fst (ReadFile file))) = None)
         good →
       snd (ReadFile bad) = Some e
       ∨ (snd (ReadFile bad) = None
          ∧ snd (Unmarshal (fst (ReadFile bad))) = Some e) →
       NewRuleFilter name config = (None, Some e)).
Proof.
  unfold NewRuleFilter. split.
  - intros plugin e Hplugin. by rewrite Hplugin.
  - intros plugin good bad rest e Hplugin Hfiles Hgood Hbad.
    rewrite Hplugin, Hfiles.
    rewrite bool_decide_eq_false_2
      by (rewrite length_app; simpl; lia).
    rewrite (loadLoop_first_error good rest bad e); [done| |].
    + eapply Forall_impl; [done|].
      intros file. by rewrite loadServiceSignatures_nil_error.
    + by apply loadServiceSignatures_error.
Qed.

End ConstructionErrors.

Lemma NewRuleFilter_first_error_witness :
  NewRuleFilter (E := exampleEngine) (H := exampleHost) "rules"
    {[ "servicesfiles" := [ "a.json"; "bad.json"; "missing.json" ] ]}
  = (None, Some "unexpected end of JSON input").
Proof.
  destruct (NewRuleFilter_first_error (E := exampleEngine) (H := exampleHost)
              "rules"
              {[ "servicesfiles" := [ "a.json"; "bad.json"; "missing.json" ] ]})
    as [_ Hfirst].
  eapply (Hfirst _ [ "a.json" ] "bad.json" [ "missing.json" ]).
  - reflexivity.
  - reflexivity.
  - constructor; [by vm_compute | constructor].
  - right. by vm_compute.
Defined.
